(** * Low-level PDF tokenizer: [ptext/io/read/tokenize/low_level_tokenizer.py]

    A shallow embedding of [LowLevelTokenizer] over an in-memory, seekable
    byte source, and the properties of its scanning algorithm.

    Conventions.
    - A Python [bytes] value and the [str] obtained from it by
      [decode("latin-1")] are both a [string]: one [ascii] per 8-bit unit.
    - [ch] is, as in the source, a [str] of length 0 or 1: the empty string
      is what [read(1)] yields at the end of the stream.
    - Python integers are [Z]; the cursor of the byte source, which is never
      negative, is a [nat].
    - A [while] loop is a [Fixpoint] on a fuel argument; running out of fuel
      is the separate outcome [OutOfFuel], and the termination section shows
      it is never reached with the fuel [next_token] supplies. *)

From Stdlib Require Import Bool Arith ZArith Lia List.
From Stdlib Require Import Ascii String.
Import ListNotations.

Local Open Scope string_scope.

(** ** Python values *)

(** [len(s)] *)
Definition len (s : string) : nat := String.length s.

(** [a in b] on two [str]: the substring test. *)
Definition str_in (a b : string) : bool :=
  match String.index 0 a b with
  | Some _ => true
  | None => false
  end.

(** [s.endswith(suffix)] *)
Definition endswith (s suffix : string) : bool :=
  String.eqb (String.substring (len s - len suffix) (len suffix) s) suffix
  && (len suffix <=? len s)%nat.

(** ["\r"], ["\n"] and ["\\"] *)
Definition CR : string := String (ascii_of_nat 13) "".
Definition LF : string := String (ascii_of_nat 10) "".
Definition BACKSLASH : string := String (ascii_of_nat 92) "".

Inductive exception : Type :=
| AssertionError (msg : option string)   (* [assert cond] carries no message *)
| TypeError
| ValueError.

(** ** The byte source: [io.BytesIO] *)

Record BytesIO : Type := mkBytesIO { buf : string; pos : nat }.

(** The result of running a method: a value or an exception, each with the
    byte source as the call left it, or fuel exhaustion. *)
Inductive outcome (A : Type) : Type :=
| Ret (a : A) (s : BytesIO)
| Raise (e : exception) (s : BytesIO)
| OutOfFuel.

Arguments Ret {A} a s.
Arguments Raise {A} e s.
Arguments OutOfFuel {A}.

Definition M (A : Type) : Type := BytesIO -> outcome A.

Definition ret {A} (a : A) : M A := fun s => Ret a s.

Definition bind {A B} (m : M A) (k : A -> M B) : M B :=
  fun s =>
    match m s with
    | Ret a s' => k a s'
    | Raise e s' => Raise e s'
    | OutOfFuel => OutOfFuel
    end.

Definition raise {A} (e : exception) : M A := fun s => Raise e s.

Definition out_of_fuel {A} : M A := fun _ => OutOfFuel.

Declare Scope tok_scope.
Delimit Scope tok_scope with tok.
Notation "x <- m ;; k" := (bind m (fun x => k))
  (at level 61, m at next level, right associativity) : tok_scope.
Notation "' ( x , y ) <- m ;; k" := (bind m (fun xy => let '(x, y) := xy in k))
  (at level 61, x name, y name, m at next level, right associativity) : tok_scope.
Notation "m ;; k" := (bind m (fun _ => k))
  (at level 61, right associativity) : tok_scope.
Local Open Scope tok_scope.

(** [assert cond] *)
Definition assert (cond : bool) : M unit :=
  if cond then ret tt else raise (AssertionError None).

(** [ord(ch)]: defined on strings of length one only. *)
Definition ord (ch : string) : M Z :=
  match ch with
  | String c EmptyString => ret (Z.of_nat (nat_of_ascii c))
  | _ => raise TypeError
  end.

(** [bytes.decode("latin-1")]: every byte is the character of the same code. *)
Definition decode_latin1 (b : string) : string := b.

Definition SEEK_SET : Z := 0.
Definition SEEK_CUR : Z := 1.
Definition SEEK_END : Z := 2.

(** [io_source.read(n)]: the bytes from the cursor on, at most [n] of them;
    the cursor moves past what was read. Reading at or beyond the end yields
    the empty [bytes] and leaves the cursor where it is. *)
Definition io_read (n : nat) : M string :=
  fun s =>
    let b := String.substring (pos s) n (buf s) in
    Ret b (mkBytesIO (buf s) (pos s + len b)).

(** [io_source.tell()] *)
Definition io_tell : M Z := fun s => Ret (Z.of_nat (pos s)) s.

(** [io_source.seek(offset, whence)]: a negative absolute offset is a
    [ValueError]; a relative seek that would land before the start lands on
    the start. The new absolute position is returned. *)
Definition io_seek (offset whence : Z) : M Z :=
  fun s =>
    if (whence =? SEEK_SET)%Z then
      if (offset <? 0)%Z then Raise ValueError s
      else Ret offset (mkBytesIO (buf s) (Z.to_nat offset))
    else if (whence =? SEEK_CUR)%Z then
      let p := Z.max 0 (Z.of_nat (pos s) + offset) in
      Ret p (mkBytesIO (buf s) (Z.to_nat p))
    else if (whence =? SEEK_END)%Z then
      let p := Z.max 0 (Z.of_nat (len (buf s)) + offset) in
      Ret p (mkBytesIO (buf s) (Z.to_nat p))
    else Raise ValueError s.

(** ** [TokenType] and [Token] *)

Inductive TokenType : Type :=
| NUMBER | STRING | HEX_STRING | NAME | COMMENT
| START_ARRAY | END_ARRAY | START_DICT | END_DICT
| REF | OBJ | END_OBJ | OTHER | END_OF_FILE.

(** The [IntEnum] value of each member. *)
Definition TokenType_value (t : TokenType) : Z :=
  match t with
  | NUMBER => 1 | STRING => 2 | HEX_STRING => 3 | NAME => 4 | COMMENT => 5
  | START_ARRAY => 6 | END_ARRAY => 7 | START_DICT => 8 | END_DICT => 9
  | REF => 10 | OBJ => 11 | END_OBJ => 12 | OTHER => 13 | END_OF_FILE => 14
  end%Z.

(** [==] on an [IntEnum] compares the integer values. *)
Definition TokenType_eqb (a b : TokenType) : bool :=
  (TokenType_value a =? TokenType_value b)%Z.

Record Token : Type := mkToken {
  byte_offset : Z;
  token_type : TokenType;
  text : string
}.

Definition set_byte_offset (t : Token) (o : Z) : Token :=
  mkToken o (token_type t) (text t).

Definition set_text (t : Token) (x : string) : Token :=
  mkToken (byte_offset t) (token_type t) x.

Definition set_token_type (t : Token) (k : TokenType) : Token :=
  mkToken (byte_offset t) k (text t).

(** ** [LowLevelTokenizer] *)

(** [_is_delimiter] *)
Definition _is_delimiter (ch : string) : M bool :=
  o <- ord ch ;;
  ret (existsb (Z.eqb o)
         [-1; 0; 9; 10; 12; 13; 32; 37; 40; 41; 47; 60; 62; 91; 93]%Z).

(** [_is_whitespace] *)
Definition _is_whitespace (ch : string) : M bool :=
  o <- ord ch ;;
  ret (existsb (Z.eqb o) [0; 9; 10; 12; 13; 32]%Z).

(** [_next_char] *)
Definition _next_char : M string :=
  b <- io_read 1 ;;
  ret (decode_latin1 b).

(** [_prev_char] *)
Definition _prev_char : M Z := io_seek (-1) SEEK_CUR.

(** [seek] and [tell] pass through to the byte source. *)
Definition seek (p whence : Z) : M Z := io_seek p whence.
Definition tell : M Z := io_tell.

(** The loops of [next_token], in the order of the source. Each returns the
    variables the code after the loop still reads. *)

(** [while len(ch) > 0 and self._is_whitespace(ch): ch = self._next_char()] *)
Fixpoint whitespace_loop (fuel : nat) (ch : string) : M string :=
  match fuel with
  | O => out_of_fuel
  | S fuel' =>
      if (0 <? len ch)%nat then
        w <- _is_whitespace ch ;;
        if w then
          ch <- _next_char ;;
          whitespace_loop fuel' ch
        else ret ch
      else ret ch
  end.

(** The [while True] loop of the NAME case; yields [(out_str, ch)]. *)
Fixpoint name_loop (fuel : nat) (out_str : string) : M (string * string) :=
  match fuel with
  | O => out_of_fuel
  | S fuel' =>
      ch <- _next_char ;;
      if (len ch =? 0)%nat then ret (out_str, ch)
      else
        d <- _is_delimiter ch ;;
        if d then ret (out_str, ch)
        else name_loop fuel' (out_str ++ ch)
  end.

(** The loop of the COMMENT case; yields [(out_str, ch)]. *)
Fixpoint comment_loop (fuel : nat) (ch out_str : string) : M (string * string) :=
  match fuel with
  | O => out_of_fuel
  | S fuel' =>
      if negb (len ch =? 0)%nat && negb (ch =? CR) && negb (ch =? LF) then
        let out_str := out_str ++ ch in
        ch <- _next_char ;;
        comment_loop fuel' ch out_str
      else ret (out_str, ch)
  end.

(** The [while True] loop of the HEX_STRING case; yields [out_str]. *)
Fixpoint hex_loop (fuel : nat) (out_str : string) : M string :=
  match fuel with
  | O => out_of_fuel
  | S fuel' =>
      ch <- _next_char ;;
      if (len ch =? 0)%nat then ret out_str
      else
        let out_str := out_str ++ ch in
        if ch =? ">" then ret out_str
        else hex_loop fuel' out_str
  end.

(** The loop of the NUMBER case; yields [(out_str, ch)]. *)
Fixpoint number_loop (fuel : nat) (ch out_str : string) : M (string * string) :=
  match fuel with
  | O => out_of_fuel
  | S fuel' =>
      if negb (len ch =? 0)%nat && str_in ch "-+.0123456789" then
        let out_str := out_str ++ ch in
        ch <- _next_char ;;
        number_loop fuel' ch out_str
      else ret (out_str, ch)
  end.

(** The [while True] loop of the STRING case; yields [(out_str, ch)]. *)
Fixpoint string_loop (fuel : nat) (bracket_nesting_level : Z) (out_str : string)
  : M (string * string) :=
  match fuel with
  | O => out_of_fuel
  | S fuel' =>
      ch <- _next_char ;;
      if (len ch =? 0)%nat then ret (out_str, ch)
      else if ch =? BACKSLASH then
        ch <- _next_char ;;
        string_loop fuel' bracket_nesting_level (out_str ++ (BACKSLASH ++ ch))
      else
        let bracket_nesting_level :=
          if ch =? "(" then (bracket_nesting_level + 1)%Z
          else bracket_nesting_level in
        let bracket_nesting_level :=
          if ch =? ")" then (bracket_nesting_level - 1)%Z
          else bracket_nesting_level in
        let out_str := out_str ++ ch in
        if (bracket_nesting_level =? 0)%Z then ret (out_str, ch)
        else string_loop fuel' bracket_nesting_level out_str
  end.

(** The loop of the OTHER case; yields [(out_str, ch)]. *)
Fixpoint other_loop (fuel : nat) (ch out_str : string) : M (string * string) :=
  match fuel with
  | O => out_of_fuel
  | S fuel' =>
      if negb (len ch =? 0)%nat then
        d <- _is_delimiter ch ;;
        if negb d then
          let out_str := out_str ++ ch in
          ch <- _next_char ;;
          other_loop fuel' ch out_str
        else ret (out_str, ch)
      else ret (out_str, ch)
  end.

(** [if len(ch) != 0: self._prev_char()] *)
Definition push_back (ch : string) : M unit :=
  if negb (len ch =? 0)%nat then (_prev_char ;; ret tt) else ret tt.

(** [next_token], from the first dispatch test ([ch == "["]) to the end:
    the part that runs once the whitespace has been skipped. *)
Definition lexeme (fuel : nat) (ch : string) : M (option Token) :=
  (* START_ARRAY *)
  if ch =? "[" then
    p <- io_tell ;;
    ret (Some (mkToken (p - 1) START_ARRAY "["))
  (* END ARRAY *)
  else if ch =? "]" then
    p <- io_tell ;;
    ret (Some (mkToken (p - 1) END_ARRAY "]"))
  (* NAME *)
  else if ch =? "/" then
    let out_str := "/" in
    p <- io_tell ;;
    let out_pos := (p - 1)%Z in
    '(out_str, ch) <- name_loop fuel out_str ;;
    push_back ch ;;
    ret (Some (mkToken out_pos NAME out_str))
  (* END_DICT *)
  else if ch =? ">" then
    p <- io_tell ;;
    let out_pos := (p - 1)%Z in
    ch <- _next_char ;;
    (* CHECK UNEXPECTED CHARACTER AFTER > *)
    assert (ch =? ">") ;;
    ret (Some (mkToken out_pos END_DICT ">>"))
  (* COMMENT *)
  else if ch =? "%" then
    let out_str := "" in
    p <- io_tell ;;
    let out_pos := (p - 1)%Z in
    '(out_str, ch) <- comment_loop fuel ch out_str ;;
    push_back ch ;;
    ret (Some (mkToken out_pos COMMENT out_str))
  (* HEX_STRING OR DICT *)
  else if ch =? "<" then
    p <- io_tell ;;
    let out_pos := (p - 1)%Z in
    ch <- _next_char ;;
    (* DICT *)
    if ch =? "<" then ret (Some (mkToken out_pos START_DICT "<<"))
    (* empty hex string *)
    else if ch =? ">" then ret (Some (mkToken out_pos HEX_STRING "<>"))
    (* HEX_STRING *)
    else
      let out_str := "<" ++ ch in
      out_str <- hex_loop fuel out_str ;;
      ret (Some (mkToken out_pos HEX_STRING out_str))
  (* NUMBER *)
  else if str_in ch "-+.0123456789" then
    let out_str := "" in
    p <- io_tell ;;
    let out_pos := (p - 1)%Z in
    '(out_str, ch) <- number_loop fuel ch out_str ;;
    push_back ch ;;
    ret (Some (mkToken out_pos NUMBER out_str))
  (* STRING *)
  else if ch =? "(" then
    let bracket_nesting_level := 1%Z in
    let out_str := "(" in
    p <- io_tell ;;
    let out_pos := (p - 1)%Z in
    '(out_str, ch) <- string_loop fuel bracket_nesting_level out_str ;;
    assert (negb (len ch =? 0)%nat) ;;
    assert (negb (endswith out_str BACKSLASH)) ;;
    ret (Some (mkToken out_pos STRING out_str))
  (* OTHER *)
  else
    let out_str := "" in
    p <- io_tell ;;
    let out_pos := (p - 1)%Z in
    '(out_str, ch) <- other_loop fuel ch out_str ;;
    push_back ch ;;
    ret (Some (mkToken out_pos OTHER out_str)).

(** [next_token]: [None] is the end of the stream. *)
Definition next_token_fuel (fuel : nat) : M (option Token) :=
  ch <- _next_char ;;
  if (len ch =? 0)%nat then ret None
  else
    ch <- whitespace_loop fuel ch ;;
    lexeme fuel ch.

(** The loop of [next_non_comment_token]:
    [while t is not None and t.token_type == TokenType.COMMENT:
       t = self.next_token()] *)
Fixpoint discard_comments (iterations fuel : nat) (t : option Token)
  : M (option Token) :=
  match iterations with
  | O => out_of_fuel
  | S iterations' =>
      match t with
      | Some tok =>
          if TokenType_eqb (token_type tok) COMMENT then
            t <- next_token_fuel fuel ;;
            discard_comments iterations' fuel t
          else ret t
      | None => ret t
      end
  end.

(** [next_non_comment_token] *)
Definition next_non_comment_token_fuel (fuel : nat) : M (option Token) :=
  t <- next_token_fuel fuel ;;
  discard_comments fuel fuel t.

(** The fuel a call is given: two more than the length of the source. *)
Definition fuel_of (s : BytesIO) : nat := len (buf s) + 2.

Definition next_token : M (option Token) :=
  fun s => next_token_fuel (fuel_of s) s.

Definition next_non_comment_token : M (option Token) :=
  fun s => next_non_comment_token_fuel (fuel_of s) s.

(** [n] successive calls of [next_token], collecting what they return. *)
Fixpoint next_tokens (n : nat) : M (list (option Token)) :=
  match n with
  | O => ret []
  | S n' =>
      t <- next_token ;;
      ts <- next_tokens n' ;;
      ret (t :: ts)
  end.

(** A tokenizer over the bytes [b], as [LowLevelTokenizer(io.BytesIO(b))]
    leaves it: the cursor at the start. *)
Definition tokenizer (b : string) : BytesIO := mkBytesIO b 0.

(** * The vocabulary of the properties *)

(** The classes of bytes, as tests on one byte. *)
Definition code (c : ascii) : Z := Z.of_nat (nat_of_ascii c).

Definition whitespace_byte (c : ascii) : bool :=
  existsb (Z.eqb (code c)) [0; 9; 10; 12; 13; 32]%Z.

Definition delimiter_byte (c : ascii) : bool :=
  existsb (Z.eqb (code c))
    [-1; 0; 9; 10; 12; 13; 32; 37; 40; 41; 47; 60; 62; 91; 93]%Z.

Fixpoint all_bytes (P : ascii -> bool) (s : string) : bool :=
  match s with
  | EmptyString => true
  | String c s' => P c && all_bytes P s'
  end.

(** The source [pre ++ rest] with the cursor between the two. *)
Definition at_cursor (pre rest : string) : BytesIO :=
  mkBytesIO (pre ++ rest) (len pre).

(** Bytes left between the cursor and the end. *)
Definition remaining (s : BytesIO) : nat := len (buf s) - pos s.

Definition is_not (c : ascii) (d : ascii) : bool := negb (Ascii.eqb d c).

(** The balanced-parenthesis rule in the words of the specification, run on
    the bytes [rest] that follow the opening ["("]: a nesting [counter]; a
    backslash takes the byte after it along, verbatim and without touching
    the counter; ["("] increments and [")"] decrements the counter; the scan
    ends when the counter reaches 0, the closing byte included. The result
    is the bytes scanned and the bytes left, or [None] when the source runs
    out before the counter reaches 0 or right after a backslash. *)
Fixpoint balanced_scan (counter : Z) (rest : string) : option (string * string) :=
  match rest with
  | EmptyString => None
  | String c r =>
      if Ascii.eqb c "\" then
        match r with
        | EmptyString => None
        | String d r' =>
            match balanced_scan counter r' with
            | Some (body, rest') => Some (String c (String d body), rest')
            | None => None
            end
        end
      else
        let counter :=
          if Ascii.eqb c "(" then (counter + 1)%Z
          else if Ascii.eqb c ")" then (counter - 1)%Z
          else counter in
        if (counter =? 0)%Z then Some (String c "", r)
        else
          match balanced_scan counter r with
          | Some (body, rest') => Some (String c body, rest')
          | None => None
          end
  end.

(** An exception [e] comes out of running [m] on [s]. *)
Definition raises {A} (m : M A) (s : BytesIO) (e : exception) : Prop :=
  exists s', m s = Raise e s'.

Definition not_comment (r : outcome (option Token)) : Prop :=
  forall t s', r = Ret (Some t) s' -> token_type t <> COMMENT.

(** [skips_comments s r]: calls of [next_token], the first from [s] and each
    next one from where the one before left the cursor, return COMMENT
    tokens until one of them has the outcome [r], which is not a COMMENT
    token. *)
Inductive skips_comments : BytesIO -> outcome (option Token) -> Prop :=
| skips_done (s : BytesIO) :
    not_comment (next_token s) -> skips_comments s (next_token s)
| skips_next (s s' : BytesIO) (t : Token) (r : outcome (option Token)) :
    next_token s = Ret (Some t) s' -> token_type t = COMMENT ->
    skips_comments s' r -> skips_comments s r.

(** The longest prefix of [s] whose bytes all pass [P], and what follows. *)
Fixpoint span_bytes (P : ascii -> bool) (s : string) : string * string :=
  match s with
  | EmptyString => ("", "")
  | String c s' =>
      if P c then
        let (run, r) := span_bytes P s' in (String c run, r)
      else ("", s)
  end.

(** The first byte of [s] as a string, empty when [s] is; and the rest. *)
Definition first_byte (s : string) : string :=
  match s with
  | EmptyString => ""
  | String c _ => String c ""
  end.

Definition after_first (s : string) : string :=
  match s with
  | EmptyString => ""
  | String _ r => r
  end.

(** Bytes that are no delimiter; bytes of ["-+.0123456789"]; bytes that do
    not end a comment. *)
Definition regular_byte (c : ascii) : bool := negb (delimiter_byte c).

Definition number_byte (c : ascii) : bool :=
  existsb (Ascii.eqb c) (list_ascii_of_string "-+.0123456789").

Definition comment_byte (c : ascii) : bool :=
  negb (Ascii.eqb c (ascii_of_nat 13)) && negb (Ascii.eqb c (ascii_of_nat 10)).

(** The bytes with a case of their own in the dispatch of [next_token]. *)
Definition dispatch_byte (c : ascii) : bool :=
  existsb (Ascii.eqb c) (list_ascii_of_string "[]/>%<(").

(** [r] is empty or starts with a byte that fails [P]. *)
Definition stops_at (P : ascii -> bool) (r : string) : Prop :=
  r = "" \/ exists c r', r = String c r' /\ P c = false.

(** What [next_token] makes of a lexeme, as a function of its first byte [d]
    and the bytes [rest] behind it and of nothing else: the token's kind and
    text with the bytes left after it, or, where the call fails, the bytes
    read before the failure with the bytes left. *)
Definition scan_lexeme (d : ascii) (rest : string)
  : (TokenType * string * string) + (string * string) :=
  if Ascii.eqb d "[" then inl (START_ARRAY, "[", rest)
  else if Ascii.eqb d "]" then inl (END_ARRAY, "]", rest)
  else if Ascii.eqb d "/" then
    let (run, r) := span_bytes regular_byte rest in inl (NAME, "/" ++ run, r)
  else if Ascii.eqb d ">" then
    if String.prefix ">" rest then inl (END_DICT, ">>", after_first rest)
    else inr (">" ++ first_byte rest, after_first rest)
  else if Ascii.eqb d "%" then
    let (run, r) := span_bytes comment_byte rest in inl (COMMENT, "%" ++ run, r)
  else if Ascii.eqb d "<" then
    if String.prefix "<" rest then inl (START_DICT, "<<", after_first rest)
    else
      let (run, r) := span_bytes (is_not ">") rest in
      inl (HEX_STRING, "<" ++ run ++ first_byte r, after_first r)
  else if number_byte d then
    let (run, r) := span_bytes number_byte (String d rest) in inl (NUMBER, run, r)
  else if Ascii.eqb d "(" then
    match balanced_scan 1 rest with
    | Some (body, r) => inl (STRING, "(" ++ body, r)
    | None => inr ("(" ++ rest, "")
    end
  else
    let (run, r) := span_bytes regular_byte (String d rest) in inl (OTHER, run, r).

(** The outcome of [next_token] that [scan_lexeme] describes, for a lexeme
    that starts right behind the bytes [p]. *)
Definition scan_outcome (p : string) (d : ascii) (rest : string)
  : outcome (option Token) :=
  match scan_lexeme d rest with
  | inl (kind, txt, r) =>
      Ret (Some (mkToken (Z.of_nat (len p)) kind txt)) (at_cursor (p ++ txt) r)
  | inr (read, r) => Raise (AssertionError None) (at_cursor (p ++ read) r)
  end.

(** * Properties *)

(** ** Strings *)

Lemma append_nil_r (a : string) : a ++ "" = a.
Proof. induction a as [|c a IH]; simpl; [reflexivity | now rewrite IH]. Qed.

Lemma append_assoc (a b c : string) : (a ++ b) ++ c = a ++ (b ++ c).
Proof. induction a as [|x a IH]; simpl; [reflexivity | now rewrite IH]. Qed.

Lemma len_append (a b : string) : len (a ++ b) = len a + len b.
Proof. induction a as [|x a IH]; simpl; [reflexivity | now rewrite IH]. Qed.

Lemma substring_at_cursor (pre : string) (c : ascii) (rest : string) :
  String.substring (len pre) 1 (pre ++ String c rest) = String c "".
Proof.
  induction pre as [|x pre IH]; simpl.
  - now destruct rest.
  - exact IH.
Qed.

Lemma substring_past_end (b : string) (p : nat) :
  len b <= p -> String.substring p 1 b = "".
Proof.
  revert p; induction b as [|x b IH]; intros p Hp.
  - now destruct p.
  - destruct p as [|p]; simpl in *; [lia | apply IH; lia].
Qed.

Lemma substring_one (b : string) (p : nat) :
  (String.substring p 1 b = "" /\ len b <= p) \/
  (exists c, String.substring p 1 b = String c "" /\ p < len b).
Proof.
  revert p; induction b as [|x b IH]; intros p.
  - left. split; [now destruct p | simpl; lia].
  - destruct p as [|p]; simpl.
    + right. exists x. split; [now destruct b | lia].
    + destruct (IH p) as [[E L] | [c [E L]]].
      * left. split; [exact E | lia].
      * right. exists c. split; [exact E | lia].
Qed.

(** ** The byte source *)

Lemma at_cursor_shift (pre a rest : string) :
  at_cursor (pre ++ a) rest = mkBytesIO (pre ++ a ++ rest) (len pre + len a).
Proof. unfold at_cursor. now rewrite append_assoc, len_append. Qed.

Lemma at_cursor_split (s : BytesIO) :
  pos s <= len (buf s) -> exists pre rest, s = at_cursor pre rest.
Proof.
  destruct s as [b p]; simpl. revert p.
  induction b as [|x b IH]; intros p Hp.
  - exists "", "". destruct p; [reflexivity | simpl in Hp; lia].
  - destruct p as [|p].
    + now exists "", (String x b).
    + destruct (IH p) as (pre & rest & E); [simpl in Hp; lia|].
      exists (String x pre), rest. unfold at_cursor in *. simpl.
      now inversion E; subst.
Qed.

Lemma next_char_cons (pre : string) (c : ascii) (rest : string) :
  _next_char (at_cursor pre (String c rest))
  = Ret (String c "") (at_cursor (pre ++ String c "") rest).
Proof.
  unfold _next_char, bind, io_read, decode_latin1, ret. simpl.
  rewrite substring_at_cursor, at_cursor_shift. reflexivity.
Qed.

Lemma next_char_nil (pre : string) :
  _next_char (at_cursor pre "") = Ret "" (at_cursor pre "").
Proof.
  unfold _next_char, bind, io_read, decode_latin1, ret. simpl.
  rewrite substring_past_end by (rewrite len_append; simpl; lia).
  unfold at_cursor. simpl. now rewrite Nat.add_0_r.
Qed.

(** One read on any source: nothing at or past the end, else one byte and
    the cursor one further. *)
Lemma next_char_cases (s : BytesIO) :
  (_next_char s = Ret "" s /\ len (buf s) <= pos s) \/
  (exists c, _next_char s = Ret (String c "") (mkBytesIO (buf s) (S (pos s)))
             /\ pos s < len (buf s)).
Proof.
  unfold _next_char, bind, io_read, decode_latin1, ret.
  destruct (substring_one (buf s) (pos s)) as [[E L] | [c [E L]]]; rewrite E.
  - left. split; [|exact L]. destruct s; simpl. now rewrite Nat.add_0_r.
  - right. exists c. split; [|exact L]. simpl. now rewrite Nat.add_1_r.
Qed.

Arguments at_cursor : simpl never.

(** ** Running the monad *)

Lemma bind_Ret {A B} (m : M A) (k : A -> M B) (s s' : BytesIO) (a : A) :
  m s = Ret a s' -> bind m k s = k a s'.
Proof. unfold bind. now intros ->. Qed.

Lemma bind_Ret_inv {A B} (m : M A) (k : A -> M B) (s s2 : BytesIO) (b : B) :
  bind m k s = Ret b s2 -> exists a s1, m s = Ret a s1 /\ k a s1 = Ret b s2.
Proof.
  unfold bind. destruct (m s) as [a s1| |]; try discriminate.
  intros H. now exists a, s1.
Qed.

Lemma is_whitespace_byte (c : ascii) (s : BytesIO) :
  _is_whitespace (String c "") s = Ret (whitespace_byte c) s.
Proof. reflexivity. Qed.

Lemma is_delimiter_byte (c : ascii) (s : BytesIO) :
  _is_delimiter (String c "") s = Ret (delimiter_byte c) s.
Proof. reflexivity. Qed.

(** ** The whitespace skip *)

Lemma whitespace_loop_S (fuel : nat) (c : ascii) (s : BytesIO) :
  whitespace_loop (S fuel) (String c "") s
  = if whitespace_byte c
    then bind _next_char (whitespace_loop fuel) s
    else Ret (String c "") s.
Proof.
  simpl. unfold bind at 1. rewrite is_whitespace_byte.
  now destruct (whitespace_byte c).
Qed.

Lemma whitespace_loop_to_end (ws : string) :
  forall (fuel : nat) (pre : string) (c : ascii),
    whitespace_byte c = true -> all_bytes whitespace_byte ws = true ->
    len ws + 2 <= fuel ->
    whitespace_loop fuel (String c "") (at_cursor pre ws)
    = Ret "" (at_cursor (pre ++ ws) "").
Proof.
  induction ws as [|d ws IH]; intros fuel pre c Hc Hws Hf.
  - destruct fuel as [|[|fuel]]; simpl in Hf; try lia.
    rewrite whitespace_loop_S, Hc.
    rewrite (bind_Ret _ _ _ _ _ (next_char_nil pre)).
    now rewrite append_nil_r.
  - destruct fuel as [|fuel]; simpl in Hf; try lia.
    simpl in Hws. apply andb_prop in Hws as [Hd Hws].
    rewrite whitespace_loop_S, Hc.
    rewrite (bind_Ret _ _ _ _ _ (next_char_cons pre d ws)).
    rewrite IH by (auto; lia).
    now rewrite append_assoc.
Qed.

Lemma whitespace_loop_to_byte (ws : string) :
  forall (fuel : nat) (pre : string) (c d : ascii) (rest : string),
    whitespace_byte c = true -> all_bytes whitespace_byte ws = true ->
    whitespace_byte d = false ->
    len ws + 2 <= fuel ->
    whitespace_loop fuel (String c "") (at_cursor pre (ws ++ String d rest))
    = Ret (String d "") (at_cursor (pre ++ ws ++ String d "") rest).
Proof.
  induction ws as [|e ws IH]; intros fuel pre c d rest Hc Hws Hd Hf.
  - destruct fuel as [|[|fuel]]; simpl in Hf; try lia.
    rewrite whitespace_loop_S, Hc. simpl append.
    rewrite (bind_Ret _ _ _ _ _ (next_char_cons pre d rest)).
    now rewrite whitespace_loop_S, Hd.
  - destruct fuel as [|fuel]; simpl in Hf; try lia.
    simpl in Hws. apply andb_prop in Hws as [He Hws].
    rewrite whitespace_loop_S, Hc. simpl append.
    rewrite (bind_Ret _ _ _ _ _ (next_char_cons pre e _)).
    rewrite IH by (auto; lia).
    now rewrite append_assoc.
Qed.

(** [next_token] on a source whose cursor stands before whitespace [ws] and
    then a byte [d] that is not: the dispatch runs on [d], just read. *)
Lemma next_token_fuel_lexeme (fuel : nat) (pre ws : string) (d : ascii)
      (rest : string) :
  all_bytes whitespace_byte ws = true -> whitespace_byte d = false ->
  len ws + 2 <= fuel ->
  next_token_fuel fuel (at_cursor pre (ws ++ String d rest))
  = lexeme fuel (String d "") (at_cursor (pre ++ ws ++ String d "") rest).
Proof.
  intros Hws Hd Hf. unfold next_token_fuel.
  destruct ws as [|c ws]; simpl append.
  - rewrite (bind_Ret _ _ _ _ _ (next_char_cons pre d rest)). simpl.
    destruct fuel as [|fuel]; [lia|].
    unfold bind. now rewrite whitespace_loop_S, Hd.
  - simpl in Hws. apply andb_prop in Hws as [Hc Hws].
    rewrite (bind_Ret _ _ _ _ _ (next_char_cons pre c _)). simpl.
    unfold bind.
    rewrite whitespace_loop_to_byte by (auto; simpl in Hf; lia).
    now rewrite append_assoc.
Qed.

(** ... and on a source that holds nothing but whitespace from the cursor
    on: the dispatch runs on the empty string the last read returned. *)
Lemma next_token_fuel_whitespace_only (fuel : nat) (pre : string) (c : ascii)
      (ws : string) :
  all_bytes whitespace_byte (String c ws) = true ->
  len ws + 2 <= fuel ->
  next_token_fuel fuel (at_cursor pre (String c ws))
  = lexeme fuel "" (at_cursor (pre ++ String c ws) "").
Proof.
  intros Hws Hf. unfold next_token_fuel.
  simpl in Hws. apply andb_prop in Hws as [Hc Hws].
  rewrite (bind_Ret _ _ _ _ _ (next_char_cons pre c _)). simpl.
  unfold bind.
  rewrite whitespace_loop_to_end by (auto; lia).
  now rewrite append_assoc.
Qed.

Lemma next_token_fuel_end (fuel : nat) (s : BytesIO) :
  len (buf s) <= pos s -> next_token_fuel fuel s = Ret None s.
Proof.
  intros H. unfold next_token_fuel.
  destruct (next_char_cases s) as [[E _] | [c [_ L]]]; [|lia].
  now rewrite (bind_Ret _ _ _ _ _ E).
Qed.

Lemma prev_char_cons (pre : string) (c : ascii) (rest : string) :
  _prev_char (at_cursor (pre ++ String c "") rest)
  = Ret (Z.of_nat (len pre)) (at_cursor pre (String c rest)).
Proof.
  unfold _prev_char, io_seek, at_cursor. simpl.
  rewrite len_append, append_assoc. simpl.
  replace (Z.max 0 (Z.of_nat (len pre + 1) + -1)) with (Z.of_nat (len pre)) by lia.
  now rewrite Nat2Z.id.
Qed.

Lemma push_back_cons (pre : string) (c : ascii) (rest : string) :
  push_back (String c "") (at_cursor (pre ++ String c "") rest)
  = Ret tt (at_cursor pre (String c rest)).
Proof.
  unfold push_back. simpl. now rewrite (bind_Ret _ _ _ _ _ (prev_char_cons pre c rest)).
Qed.

Lemma tell_before (pre : string) (c : ascii) (rest : string) :
  (Z.of_nat (pos (at_cursor (pre ++ String c "") rest)) - 1)%Z = Z.of_nat (len pre).
Proof. unfold at_cursor. simpl. rewrite len_append. simpl. lia. Qed.

Lemma lexeme_close_paren (fuel : nat) (pre rest : string) :
  lexeme (S fuel) ")" (at_cursor (pre ++ ")") rest)
  = Ret (Some (mkToken (Z.of_nat (len pre)) OTHER "")) (at_cursor pre (")" ++ rest)).
Proof.
  unfold lexeme. simpl.
  unfold bind at 1. unfold io_tell. rewrite tell_before.
  unfold bind at 1.
  rewrite (bind_Ret _ _ _ _ _ (is_delimiter_byte _ _)). simpl.
  now rewrite (bind_Ret _ _ _ _ _ (push_back_cons pre _ rest)).
Qed.

Lemma lexeme_end_of_stream (fuel : nat) (s : BytesIO) :
  lexeme (S fuel) "" s
  = Ret (Some (mkToken (Z.of_nat (pos s) - 1) NUMBER "")) s.
Proof. reflexivity. Qed.

Lemma next_tokens_S (n : nat) (s s' : BytesIO) (t : option Token) :
  next_token s = Ret t s' ->
  next_tokens (S n) s
  = match next_tokens n s' with
    | Ret ts s'' => Ret (t :: ts) s''
    | Raise e s'' => Raise e s''
    | OutOfFuel => OutOfFuel
    end.
Proof. intros H. simpl. now rewrite (bind_Ret _ _ _ _ _ H). Qed.

(** ** Tokens with empty text *)

(** C3. When the next byte after the whitespace at the cursor is [")"],
    [next_token] returns an OTHER token with empty text whose [byte_offset]
    is the offset of that [")"], and leaves the cursor on the [")"]; so any
    number of further calls return that same token and leave the cursor
    there. *)
Theorem close_paren_yields_empty_other (pre ws rest : string) (n : nat) :
  all_bytes whitespace_byte ws = true ->
  let t := mkToken (Z.of_nat (len (pre ++ ws))) OTHER "" in
  let s' := at_cursor (pre ++ ws) (")" ++ rest) in
  next_token (at_cursor pre (ws ++ ")" ++ rest)) = Ret (Some t) s'
  /\ text t = "" /\ pos s' = len (pre ++ ws)
  /\ String.get (pos s') (buf s') = Some ")"%char
  /\ next_tokens n s' = Ret (repeat (Some t) n) s'.
Proof.
  intros Hws t s'.
  assert (step : forall p w, all_bytes whitespace_byte w = true ->
            next_token (at_cursor p (w ++ ")" ++ rest))
            = Ret (Some (mkToken (Z.of_nat (len (p ++ w))) OTHER ""))
                  (at_cursor (p ++ w) (")" ++ rest))).
  { intros p w Hw. unfold next_token, fuel_of.
    change (")" ++ rest) with (String ")"%char rest).
    rewrite next_token_fuel_lexeme; auto.
    - rewrite Nat.add_comm. simpl "+".
      rewrite <- (append_assoc p w ")"). apply lexeme_close_paren.
    - unfold at_cursor; simpl. rewrite !len_append. lia. }
  split; [now apply step|].
  split; [reflexivity|].
  split; [reflexivity|].
  split.
  - unfold s', at_cursor. simpl.
    generalize (pre ++ ws). intros p. induction p; simpl; auto.
  - induction n as [|n IH]; [reflexivity|].
    assert (E : next_token s' = Ret (Some t) s').
    { unfold s', t. specialize (step (pre ++ ws) "" eq_refl).
      simpl append in step. now rewrite append_nil_r in step. }
    rewrite (next_tokens_S _ _ _ _ E), IH. reflexivity.
Qed.

Lemma close_paren_yields_empty_other_witness :
  next_token (tokenizer " )")
  = Ret (Some (mkToken 1 OTHER "")) (mkBytesIO " )" 1)
  /\ next_tokens 3 (mkBytesIO " )" 1)
     = Ret (repeat (Some (mkToken 1 OTHER "")) 3) (mkBytesIO " )" 1).
Proof.
  destruct (close_paren_yields_empty_other "" " " "" 3 eq_refl)
    as (H1 & _ & _ & _ & H2).
  split; [exact H1 | exact H2].
Defined.

Lemma next_token_whitespace_only (pre : string) (c : ascii) (ws : string) :
  all_bytes whitespace_byte (String c ws) = true ->
  next_token (at_cursor pre (String c ws))
  = Ret (Some (mkToken (Z.of_nat (len (pre ++ String c ws)) - 1) NUMBER ""))
        (at_cursor (pre ++ String c ws) "").
Proof.
  intros Hws. unfold next_token, fuel_of.
  rewrite next_token_fuel_whitespace_only; auto.
  - rewrite Nat.add_comm. simpl "+". rewrite lexeme_end_of_stream.
    unfold at_cursor; simpl. now rewrite append_nil_r.
  - unfold at_cursor; simpl. rewrite !len_append. simpl. lia.
Qed.

(** [next_token] at whitespace [ws] followed by a byte [d] that is not
    whitespace, with the fuel [next_token] supplies. *)
Lemma next_token_lexeme (pre ws : string) (d : ascii) (rest : string) :
  all_bytes whitespace_byte ws = true -> whitespace_byte d = false ->
  next_token (at_cursor pre (ws ++ String d rest))
  = lexeme (len (pre ++ ws ++ String d rest) + 2) (String d "")
      (at_cursor ((pre ++ ws) ++ String d "") rest).
Proof.
  intros Hws Hd. unfold next_token, fuel_of.
  rewrite next_token_fuel_lexeme; auto.
  - now rewrite <- (append_assoc pre ws).
  - unfold at_cursor; simpl. rewrite !len_append. lia.
Qed.

(** C1. On the source [" "], one blank and then the end of the stream, the
    source runs out during the whitespace skip; the empty [ch] is then found
    [in "-+.0123456789"], and [next_token] returns a NUMBER token with empty
    text at offset 0 instead of [None]. *)
Theorem whitespace_then_end_returns_number_token :
  str_in "" "-+.0123456789" = true
  /\ next_token (tokenizer " ")
     = Ret (Some (mkToken 0 NUMBER "")) (mkBytesIO " " 1)
  /\ forall s, next_token (tokenizer " ") <> Ret None s.
Proof.
  split; [reflexivity|]. split; [reflexivity|].
  intros s H. discriminate H.
Qed.

(** C2. Two tokens with empty text: the OTHER token [next_token] returns
    on the source [")"], and the NUMBER token it returns on [" "]. *)
Theorem tokens_with_empty_text :
  next_token (tokenizer ")") = Ret (Some (mkToken 0 OTHER "")) (tokenizer ")")
  /\ next_token (tokenizer " ")
     = Ret (Some (mkToken 0 NUMBER "")) (mkBytesIO " " 1)
  /\ len (text (mkToken 0 OTHER "")) = 0.
Proof. repeat split. Qed.

(** ** Dictionary close *)

Lemma eqb_single (c d : ascii) :
  (String c "" =? String d "") = Ascii.eqb c d.
Proof. simpl. apply andb_true_r. Qed.

Lemma lexeme_end_dict (fuel : nat) (pre rest : string) :
  lexeme fuel ">" (at_cursor (pre ++ ">") (">" ++ rest))
  = Ret (Some (mkToken (Z.of_nat (len pre)) END_DICT ">>"))
        (at_cursor (pre ++ ">>") rest).
Proof.
  unfold lexeme. simpl.
  unfold bind at 1. unfold io_tell. rewrite tell_before.
  rewrite (bind_Ret _ _ _ _ _ (next_char_cons _ _ _)). simpl.
  now rewrite append_assoc.
Qed.

Lemma lexeme_end_dict_end (fuel : nat) (pre : string) :
  lexeme fuel ">" (at_cursor (pre ++ ">") "")
  = Raise (AssertionError None) (at_cursor (pre ++ ">") "").
Proof.
  unfold lexeme. simpl.
  unfold bind at 1. unfold io_tell.
  now rewrite (bind_Ret _ _ _ _ _ (next_char_nil _)).
Qed.

Lemma lexeme_end_dict_other (fuel : nat) (pre : string) (d : ascii)
      (rest : string) :
  d <> ">"%char ->
  lexeme fuel ">" (at_cursor (pre ++ ">") (String d rest))
  = Raise (AssertionError None) (at_cursor (pre ++ ">" ++ String d "") rest).
Proof.
  intros Hd. unfold lexeme. simpl.
  unfold bind at 1. unfold io_tell.
  rewrite (bind_Ret _ _ _ _ _ (next_char_cons _ _ _)).
  unfold bind at 1, assert. rewrite eqb_single.
  apply Ascii.eqb_neq in Hd. rewrite Hd. unfold raise.
  now rewrite append_assoc.
Qed.

(** C4, as the code has it. At a [">"] (after whitespace): a second [">"]
    right behind it gives the END_DICT token [">>"]; the end of the stream
    or any other byte there makes the [assert] fail, and [next_token] raises
    a bare [AssertionError] and returns no token. *)
Theorem end_dict_or_assertion_error (pre ws rest : string) :
  all_bytes whitespace_byte ws = true ->
  next_token (at_cursor pre (ws ++ ">" ++ ">" ++ rest))
  = Ret (Some (mkToken (Z.of_nat (len (pre ++ ws))) END_DICT ">>"))
        (at_cursor ((pre ++ ws) ++ ">>") rest)
  /\ next_token (at_cursor pre (ws ++ ">"))
     = Raise (AssertionError None) (at_cursor ((pre ++ ws) ++ ">") "")
  /\ forall d, d <> ">"%char ->
       next_token (at_cursor pre (ws ++ ">" ++ String d rest))
       = Raise (AssertionError None)
           (at_cursor ((pre ++ ws) ++ ">" ++ String d "") rest).
Proof.
  intros Hws. repeat split.
  - change (">" ++ ">" ++ rest) with (String ">"%char (">" ++ rest)).
    rewrite next_token_lexeme by auto. apply lexeme_end_dict.
  - rewrite next_token_lexeme by auto. apply lexeme_end_dict_end.
  - intros d Hd.
    change (">" ++ String d rest) with (String ">"%char (String d rest)).
    rewrite next_token_lexeme by auto. now apply lexeme_end_dict_other.
Qed.

Lemma end_dict_or_assertion_error_witness :
  next_token (tokenizer " >>")
  = Ret (Some (mkToken 1 END_DICT ">>")) (mkBytesIO " >>" 3)
  /\ next_token (tokenizer " >") = Raise (AssertionError None) (mkBytesIO " >" 2)
  /\ next_token (tokenizer " >a") = Raise (AssertionError None) (mkBytesIO " >a" 3).
Proof.
  split; [|split].
  - exact (proj1 (end_dict_or_assertion_error "" " " "" eq_refl)).
  - exact (proj1 (proj2 (end_dict_or_assertion_error "" " " "" eq_refl))).
  - refine (proj2 (proj2 (end_dict_or_assertion_error "" " " "" eq_refl)) "a"%char _).
    discriminate.
Defined.

(** C4, as stated, asks that the failure at a lone [">"] be an error of its
    own. It is not: on [">"] and on the unterminated literal string ["("],
    [next_token] raises one and the same exception. *)
Lemma dict_close_error_not_distinct :
  ~ (forall e e' : exception,
       raises next_token (tokenizer ">") e ->
       raises next_token (tokenizer "(") e' ->
       e <> e').
Proof.
  intros H.
  apply (H (AssertionError None) (AssertionError None)).
  - now exists (mkBytesIO ">" 1).
  - now exists (mkBytesIO "(" 1).
  - reflexivity.
Qed.

(** ** Hex strings *)

Lemma hex_loop_S (fuel : nat) (out_str : string) (pre : string) (d : ascii)
      (rest : string) :
  hex_loop (S fuel) out_str (at_cursor pre (String d rest))
  = if Ascii.eqb d ">"
    then Ret (out_str ++ String d "") (at_cursor (pre ++ String d "") rest)
    else hex_loop fuel (out_str ++ String d "") (at_cursor (pre ++ String d "") rest).
Proof.
  simpl. rewrite (bind_Ret _ _ _ _ _ (next_char_cons _ _ _)).
  cbv beta. change (len (String d "") =? 0)%nat with false. cbv iota.
  rewrite (eqb_single d ">"). now destruct (Ascii.eqb d ">").
Qed.

(** Without a [">"] ahead the loop runs to the end of the source and keeps
    every byte it read. *)
Lemma hex_loop_to_end (body : string) :
  forall (fuel : nat) (out_str pre : string),
    all_bytes (is_not ">") body = true ->
    len body + 1 <= fuel ->
    hex_loop fuel out_str (at_cursor pre body)
    = Ret (out_str ++ body) (at_cursor (pre ++ body) "").
Proof.
  induction body as [|d body IH]; intros fuel out_str pre Hb Hf.
  - destruct fuel as [|fuel]; [simpl in Hf; lia|]. simpl.
    rewrite (bind_Ret _ _ _ _ _ (next_char_nil _)). simpl.
    now rewrite !append_nil_r.
  - destruct fuel as [|fuel]; [simpl in Hf; lia|].
    simpl in Hb. apply andb_prop in Hb as [Hd Hb].
    unfold is_not in Hd. apply negb_true_iff in Hd.
    rewrite hex_loop_S, Hd, IH by (auto; simpl in Hf; lia).
    now rewrite !append_assoc.
Qed.

Lemma lexeme_truncated_hex (fuel : nat) (pre body : string) :
  all_bytes (is_not ">") body = true -> String.prefix "<" body = false ->
  len body + 1 <= fuel ->
  lexeme fuel "<" (at_cursor (pre ++ "<") body)
  = Ret (Some (mkToken (Z.of_nat (len pre)) HEX_STRING ("<" ++ body)))
        (at_cursor (pre ++ "<" ++ body) "").
Proof.
  intros Hb Hp Hf. unfold lexeme. simpl.
  unfold bind at 1. unfold io_tell. rewrite tell_before.
  destruct body as [|d body].
  - rewrite (bind_Ret _ _ _ _ _ (next_char_nil _)). simpl.
    rewrite (bind_Ret _ _ _ _ _ (hex_loop_to_end "" fuel "<" (pre ++ "<") eq_refl Hf)).
    unfold ret. now rewrite !append_nil_r.
  - rewrite (bind_Ret _ _ _ _ _ (next_char_cons _ _ _)).
    simpl in Hb. apply andb_prop in Hb as [Hd Hb].
    unfold is_not in Hd. apply negb_true_iff in Hd.
    assert (Hd' : Ascii.eqb d "<" = false).
    { simpl in Hp. destruct (Ascii.ascii_dec "<" d) as [E|E].
      - subst d. now destruct body.
      - apply Ascii.eqb_neq. congruence. }
    rewrite !eqb_single, Hd, Hd'.
    rewrite (bind_Ret _ _ _ _ _
               (hex_loop_to_end body fuel _ _ Hb ltac:(simpl in Hf; lia))).
    unfold ret. now rewrite !append_assoc.
Qed.

(** ** Literal strings *)

Lemma balanced_scan_split (rest : string) :
  forall (n : nat) (counter : Z) (body rest' : string),
    len rest <= n ->
    balanced_scan counter rest = Some (body, rest') ->
    rest = body ++ rest'
    /\ exists x c, body = x ++ String c "" /\ c <> "\"%char.
Proof.
  intros n; revert rest.
  induction n as [|n IH]; intros rest counter body rest' Hn H.
  - destruct rest; [discriminate | simpl in Hn; lia].
  - destruct rest as [|c r]; [discriminate|]. simpl in H, Hn.
    destruct (Ascii.eqb c "\") eqn:Ec.
    + destruct r as [|d r']; [discriminate|].
      destruct (balanced_scan counter r') as [[b l]|] eqn:E; [|discriminate].
      inversion H; subst; clear H.
      apply IH in E as (-> & x & e & -> & He); [|simpl in Hn; lia].
      split; [reflexivity|].
      now exists (String c (String d x)), e.
    + match type of H with (if ?t then _ else _) = _ => destruct t end.
      * inversion H; subst; clear H. split; [reflexivity|].
        exists "", c. split; [reflexivity|].
        now apply Ascii.eqb_neq.
      * match type of H with
          match balanced_scan ?k r with _ => _ end = _ =>
            destruct (balanced_scan k r) as [[b l]|] eqn:E; [|discriminate]
        end.
        inversion H; subst; clear H.
        apply IH in E as (-> & x & e & -> & He); [|lia].
        split; [reflexivity|].
        now exists (String c x), e.
Qed.

Lemma eqb_backslash (c : ascii) :
  (String c "" =? BACKSLASH) = Ascii.eqb c "\".
Proof. apply eqb_single. Qed.

Lemma string_loop_S (fuel : nat) (level : Z) (out_str pre : string)
      (c : ascii) (r : string) :
  string_loop (S fuel) level out_str (at_cursor pre (String c r))
  = if Ascii.eqb c "\" then
      bind _next_char
        (fun ch => string_loop fuel level (out_str ++ BACKSLASH ++ ch))
        (at_cursor (pre ++ String c "") r)
    else
      let level :=
        if Ascii.eqb c "(" then (level + 1)%Z
        else if Ascii.eqb c ")" then (level - 1)%Z
        else level in
      if (level =? 0)%Z
      then Ret (out_str ++ String c "", String c "")
               (at_cursor (pre ++ String c "") r)
      else string_loop fuel level (out_str ++ String c "")
             (at_cursor (pre ++ String c "") r).
Proof.
  simpl. rewrite (bind_Ret _ _ _ _ _ (next_char_cons _ _ _)).
  cbv beta. change (len (String c "") =? 0)%nat with false. cbv iota.
  rewrite eqb_backslash, !eqb_single.
  destruct (Ascii.eqb c "\"); [reflexivity|].
  destruct (Ascii.eqb_spec c "(") as [->|_].
  - change ("(" =? ")")%char with false. cbv iota zeta.
    now destruct (level + 1 =? 0)%Z.
  - cbv zeta. destruct (Ascii.eqb c ")");
      match goal with |- context [(?k =? 0)%Z] => now destruct (k =? 0)%Z end.
Qed.

(** The loop of the STRING case computes the balanced-parenthesis rule: it
    stops where the rule does, with the same bytes, or runs to the end of
    the source with an empty [ch] where the rule has no result. *)
Lemma string_loop_balanced_scan (fuel : nat) :
  forall (rest : string) (level : Z) (out_str pre : string),
    len rest + 1 <= fuel ->
    match balanced_scan level rest with
    | Some (body, rest') =>
        exists ch, len ch = 1 /\
          string_loop fuel level out_str (at_cursor pre rest)
          = Ret (out_str ++ body, ch) (at_cursor (pre ++ body) rest')
    | None =>
        string_loop fuel level out_str (at_cursor pre rest)
        = Ret (out_str ++ rest, "") (at_cursor (pre ++ rest) "")
    end.
Proof.
  induction fuel as [|fuel IH]; intros rest level out_str pre Hf; [lia|].
  destruct rest as [|c r].
  - simpl. rewrite (bind_Ret _ _ _ _ _ (next_char_nil _)). simpl.
    now rewrite !append_nil_r.
  - rewrite string_loop_S. simpl balanced_scan. simpl in Hf.
    destruct (Ascii.eqb_spec c "\") as [->|Hc].
    + destruct r as [|d r'].
      * rewrite (bind_Ret _ _ _ _ _ (next_char_nil _)).
        destruct fuel as [|fuel]; [simpl in Hf; lia|]. simpl.
        rewrite (bind_Ret _ _ _ _ _ (next_char_nil _)). simpl.
        reflexivity.
      * rewrite (bind_Ret _ _ _ _ _ (next_char_cons _ _ _)).
        specialize (IH r' level (out_str ++ BACKSLASH ++ String d "")
                      ((pre ++ "\") ++ String d "")
                      ltac:(simpl in Hf; lia)).
        destruct (balanced_scan level r') as [[body rest']|].
        -- destruct IH as (ch & Hch & IH). exists ch. split; [exact Hch|].
           rewrite IH. now rewrite !append_assoc.
        -- rewrite IH. now rewrite !append_assoc.
    + cbv zeta.
      match goal with |- context [(?k =? 0)%Z] => destruct (k =? 0)%Z; set (level' := k) end.
      * exists (String c ""). split; reflexivity.
      * specialize (IH r level' (out_str ++ String c "") (pre ++ String c "")
                      ltac:(lia)).
        destruct (balanced_scan level' r) as [[body rest']|].
        -- destruct IH as (ch & Hch & IH). exists ch. split; [exact Hch|].
           rewrite IH. now rewrite !append_assoc.
        -- rewrite IH. now rewrite !append_assoc.
Qed.

Lemma endswith_last (x : string) (c d : ascii) :
  endswith (x ++ String c "") (String d "") = Ascii.eqb c d.
Proof.
  unfold endswith. rewrite len_append. simpl len.
  replace (len x + 1 - 1) with (len x) by lia.
  rewrite substring_at_cursor, eqb_single.
  replace (1 <=? len x + 1)%nat with true by (symmetry; apply Nat.leb_le; lia).
  apply andb_true_r.
Qed.

Lemma lexeme_literal_string (fuel : nat) (pre rest : string) :
  len rest + 1 <= fuel ->
  lexeme fuel "(" (at_cursor (pre ++ "(") rest)
  = match balanced_scan 1 rest with
    | Some (body, rest') =>
        Ret (Some (mkToken (Z.of_nat (len pre)) STRING ("(" ++ body)))
            (at_cursor (pre ++ "(" ++ body) rest')
    | None =>
        Raise (AssertionError None) (at_cursor (pre ++ "(" ++ rest) "")
    end.
Proof.
  intros Hf. unfold lexeme. simpl.
  unfold bind at 1. unfold io_tell. rewrite tell_before.
  pose proof (string_loop_balanced_scan fuel rest 1 "(" (pre ++ "(") Hf) as L.
  destruct (balanced_scan 1 rest) as [[body rest']|] eqn:E.
  - destruct L as (ch & Hch & L).
    rewrite (bind_Ret _ _ _ _ _ L). cbv beta iota.
    unfold bind at 1, assert. rewrite Hch. simpl.
    apply (balanced_scan_split _ (len rest)) in E as (_ & x & c & -> & Hc); [|lia].
    change (String "(" (x ++ String c "")) with (String "(" x ++ String c "").
    unfold BACKSLASH. change (ascii_of_nat 92) with "\"%char.
    rewrite endswith_last.
    apply Ascii.eqb_neq in Hc. rewrite Hc. simpl.
    unfold ret. now rewrite !append_assoc.
  - rewrite (bind_Ret _ _ _ _ _ L). cbv beta iota.
    unfold bind at 1, assert. simpl. unfold raise.
    now rewrite !append_assoc.
Qed.

Ltac enough_fuel := rewrite ?len_append; simpl len; lia.

(** C5. A literal string (a ["("] after whitespace) whose balanced scan has
    no result, because the source ends before the nesting counter is back
    at 0 or right after a backslash, makes [next_token] raise the
    [AssertionError] of [assert len(ch) != 0], with the whole source
    consumed; no STRING token is returned. *)
Theorem unterminated_string_raises (pre ws rest : string) :
  all_bytes whitespace_byte ws = true ->
  balanced_scan 1 rest = None ->
  next_token (at_cursor pre (ws ++ "(" ++ rest))
  = Raise (AssertionError None) (at_cursor ((pre ++ ws) ++ "(" ++ rest) "").
Proof.
  intros Hws Hr.
  change ("(" ++ rest) with (String "("%char rest).
  rewrite next_token_lexeme by auto.
  rewrite lexeme_literal_string by enough_fuel.
  now rewrite Hr.
Qed.

Lemma unterminated_string_raises_witness :
  next_token (tokenizer "(a(b)")
  = Raise (AssertionError None) (mkBytesIO "(a(b)" 5)
  /\ next_token (tokenizer " (ab\")
     = Raise (AssertionError None) (mkBytesIO " (ab\" 5)
  /\ next_token (tokenizer "(ab\)")
     = Raise (AssertionError None) (mkBytesIO "(ab\)" 5).
Proof.
  split; [|split].
  - exact (unterminated_string_raises "" "" "a(b)" eq_refl eq_refl).
  - exact (unterminated_string_raises "" " " "ab\" eq_refl eq_refl).
  - exact (unterminated_string_raises "" "" "ab\)" eq_refl eq_refl).
Defined.

(** C6. A hex string (a ["<"] after whitespace, followed by neither ["<"]
    nor [">"]) with no [">"] before the end of the source: [next_token]
    returns a HEX_STRING token whose text is every byte from the ["<"] to
    the end of the source, and leaves the cursor at the end. The literal
    string cut short in the same way, ["(48656C"], raises instead. *)
Theorem truncated_hex_string_returns_partial_token (pre ws body : string) :
  all_bytes whitespace_byte ws = true ->
  String.prefix "<" body = false ->
  all_bytes (is_not ">") body = true ->
  next_token (at_cursor pre (ws ++ "<" ++ body))
  = Ret (Some (mkToken (Z.of_nat (len (pre ++ ws))) HEX_STRING ("<" ++ body)))
        (at_cursor ((pre ++ ws) ++ "<" ++ body) "")
  /\ next_token (tokenizer "(48656C")
     = Raise (AssertionError None) (mkBytesIO "(48656C" 7).
Proof.
  intros Hws Hp Hb. split; [|reflexivity].
  change ("<" ++ body) with (String "<"%char body).
  rewrite next_token_lexeme by auto.
  apply lexeme_truncated_hex; auto. enough_fuel.
Qed.

Lemma truncated_hex_string_returns_partial_token_witness :
  next_token (tokenizer "<48656C")
  = Ret (Some (mkToken 0 HEX_STRING "<48656C")) (mkBytesIO "<48656C" 7).
Proof.
  exact (proj1 (truncated_hex_string_returns_partial_token
                  "" "" "48656C" eq_refl eq_refl eq_refl)).
Defined.

Lemma balanced_scan_closes (n : nat) :
  forall (rest : string) (counter : Z) (body rest' : string),
    len rest <= n -> (1 <= counter)%Z ->
    balanced_scan counter rest = Some (body, rest') ->
    exists x, body = x ++ ")".
Proof.
  induction n as [|n IH]; intros rest counter body rest' Hn Hk H.
  - destruct rest; [discriminate | simpl in Hn; lia].
  - destruct rest as [|c r]; [discriminate|]. simpl in H, Hn.
    destruct (Ascii.eqb c "\").
    + destruct r as [|d r']; [discriminate|].
      destruct (balanced_scan counter r') as [[b l]|] eqn:E; [|discriminate].
      inversion H; subst; clear H.
      apply IH in E as (x & ->); [|simpl in Hn; lia|lia].
      now exists (String c (String d x)).
    + destruct (Ascii.eqb_spec c "(") as [->|_].
      * destruct (counter + 1 =? 0)%Z eqn:Z0; [lia|].
        destruct (balanced_scan (counter + 1) r) as [[b l]|] eqn:E; [|discriminate].
        inversion H; subst; clear H.
        apply IH in E as (x & ->); [|lia|lia].
        now exists (String "(" x).
      * destruct (Ascii.eqb_spec c ")") as [->|_].
        -- destruct (counter - 1 =? 0)%Z eqn:Z0.
           ++ inversion H; subst. now exists "".
           ++ destruct (balanced_scan (counter - 1) r) as [[b l]|] eqn:E;
                [|discriminate].
              inversion H; subst; clear H.
              apply IH in E as (x & ->); [|lia|lia].
              now exists (String ")" x).
        -- destruct (counter =? 0)%Z eqn:Z0; [lia|].
           destruct (balanced_scan counter r) as [[b l]|] eqn:E; [|discriminate].
           inversion H; subst; clear H.
           apply IH in E as (x & ->); [|lia|lia].
           now exists (String c x).
Qed.

(** C7. A literal string (a ["("] after whitespace) on which the
    balanced-parenthesis rule, started with the counter at 1, stops after
    the bytes [body]: [next_token] returns one STRING token at the offset of
    the ["("] whose text is ["("] and then [body], the bytes of the source
    unchanged up to and including the closing [")"], and leaves the cursor
    right behind them. On ["(Hello \(World\))"] the token's text is the
    whole input, and the next call reports the end of the stream. *)
Theorem literal_string_balanced_scan (pre ws rest body rest' : string) :
  all_bytes whitespace_byte ws = true ->
  balanced_scan 1 rest = Some (body, rest') ->
  next_token (at_cursor pre (ws ++ "(" ++ rest))
  = Ret (Some (mkToken (Z.of_nat (len (pre ++ ws))) STRING ("(" ++ body)))
        (at_cursor ((pre ++ ws) ++ "(" ++ body) rest')
  /\ rest = body ++ rest'
  /\ (exists x, body = x ++ ")")
  /\ next_tokens 2 (tokenizer "(Hello \(World\))")
     = Ret [Some (mkToken 0 STRING "(Hello \(World\))"); None]
           (mkBytesIO "(Hello \(World\))" 17).
Proof.
  intros Hws Hr. split; [|split; [|split]].
  - change ("(" ++ rest) with (String "("%char rest).
    rewrite next_token_lexeme by auto.
    rewrite lexeme_literal_string by enough_fuel.
    now rewrite Hr.
  - now apply (balanced_scan_split rest (len rest) 1).
  - now apply (balanced_scan_closes (len rest) rest 1 body rest').
  - reflexivity.
Qed.

Lemma literal_string_balanced_scan_witness :
  next_token (tokenizer " (a\)(b))c")
  = Ret (Some (mkToken 1 STRING "(a\)(b))")) (mkBytesIO " (a\)(b))c" 9).
Proof.
  exact (proj1 (literal_string_balanced_scan
                  "" " " "a\)(b))c" "a\)(b))" "c" eq_refl eq_refl)).
Defined.

(** ** Termination *)

Lemma bind_terminates {A B} (m : M A) (k : A -> M B) (s : BytesIO) :
  m s <> OutOfFuel ->
  (forall a s', m s = Ret a s' -> k a s' <> OutOfFuel) ->
  bind m k s <> OutOfFuel.
Proof.
  unfold bind. intros Hm Hk.
  destruct (m s) as [a s'| |]; [now apply Hk | discriminate | contradiction].
Qed.

Lemma next_char_result (s s' : BytesIO) (ch : string) :
  _next_char s = Ret ch s' ->
  buf s' = buf s /\
  ((ch = "" /\ s' = s) \/
   (len ch = 1 /\ pos s' = S (pos s) /\ pos s < len (buf s))).
Proof.
  intros H.
  destruct (next_char_cases s) as [[E L] | [c [E L]]];
    rewrite E in H; inversion H; subst; clear H.
  - split; [reflexivity | now left].
  - split; [reflexivity | right; now repeat split].
Qed.

Lemma next_char_terminates (s : BytesIO) : _next_char s <> OutOfFuel.
Proof.
  destruct (next_char_cases s) as [[E L] | [c [E L]]]; rewrite E; discriminate.
Qed.

Lemma is_whitespace_cases (ch : string) (s : BytesIO) :
  (exists w, _is_whitespace ch s = Ret w s) \/ _is_whitespace ch s = Raise TypeError s.
Proof. destruct ch as [|c [|d ch]]; cbv; eauto. Qed.

Lemma is_delimiter_cases (ch : string) (s : BytesIO) :
  (exists w, _is_delimiter ch s = Ret w s) \/ _is_delimiter ch s = Raise TypeError s.
Proof.
  unfold _is_delimiter, bind, ord.
  destruct ch as [|c [|d ch]]; unfold raise, ret; eauto.
Qed.

Lemma is_whitespace_result (ch : string) (s s' : BytesIO) (w : bool) :
  _is_whitespace ch s = Ret w s' -> s' = s.
Proof.
  destruct (is_whitespace_cases ch s) as [[w' E] | E]; rewrite E; congruence.
Qed.

Lemma is_delimiter_result (ch : string) (s s' : BytesIO) (w : bool) :
  _is_delimiter ch s = Ret w s' -> s' = s.
Proof.
  destruct (is_delimiter_cases ch s) as [[w' E] | E]; rewrite E; congruence.
Qed.

Lemma is_whitespace_terminates (ch : string) (s : BytesIO) :
  _is_whitespace ch s <> OutOfFuel.
Proof.
  destruct (is_whitespace_cases ch s) as [[w' E] | E]; rewrite E; discriminate.
Qed.

Lemma is_delimiter_terminates (ch : string) (s : BytesIO) :
  _is_delimiter ch s <> OutOfFuel.
Proof.
  destruct (is_delimiter_cases ch s) as [[w' E] | E]; rewrite E; discriminate.
Qed.

(** After a read the loop goes on with a byte less ahead, or at the end of
    the source with nothing read. *)
Ltac after_read H :=
  let Hb := fresh "Hb" in
  apply next_char_result in H as [Hb [[-> ->] | (? & ? & ?)]];
  [ | unfold remaining in *; try rewrite Hb in * ].

Lemma whitespace_loop_terminates (fuel : nat) :
  forall (ch : string) (s : BytesIO),
    remaining s + 2 <= fuel -> whitespace_loop fuel ch s <> OutOfFuel.
Proof.
  induction fuel as [|fuel IH]; intros ch s Hf; [lia|]. simpl.
  destruct (0 <? len ch)%nat; [|discriminate].
  apply bind_terminates; [apply is_whitespace_terminates|].
  intros w s' Hw. apply is_whitespace_result in Hw as ->.
  destruct w; [|discriminate].
  apply bind_terminates; [apply next_char_terminates|].
  intros ch' s' Hr. after_read Hr.
  - destruct fuel; [lia | discriminate].
  - apply IH. unfold remaining. rewrite Hb. lia.
Qed.

Lemma name_loop_terminates (fuel : nat) :
  forall (out_str : string) (s : BytesIO),
    remaining s + 2 <= fuel -> name_loop fuel out_str s <> OutOfFuel.
Proof.
  induction fuel as [|fuel IH]; intros out_str s Hf; [lia|]. simpl.
  apply bind_terminates; [apply next_char_terminates|].
  intros ch s' Hr. after_read Hr; [discriminate|].
  destruct (len ch =? 0)%nat; [discriminate|].
  apply bind_terminates; [apply is_delimiter_terminates|].
  intros w s'' Hw. apply is_delimiter_result in Hw as ->.
  destruct w; [discriminate|].
  apply IH. unfold remaining. rewrite Hb. lia.
Qed.

Lemma comment_loop_terminates (fuel : nat) :
  forall (ch out_str : string) (s : BytesIO),
    remaining s + 2 <= fuel -> comment_loop fuel ch out_str s <> OutOfFuel.
Proof.
  induction fuel as [|fuel IH]; intros ch out_str s Hf; [lia|]. simpl.
  destruct (negb (len ch =? 0)%nat && negb (ch =? CR) && negb (ch =? LF));
    [|discriminate].
  apply bind_terminates; [apply next_char_terminates|].
  intros ch' s' Hr. after_read Hr.
  - destruct fuel; [lia | discriminate].
  - apply IH. unfold remaining. rewrite Hb. lia.
Qed.

Lemma hex_loop_terminates (fuel : nat) :
  forall (out_str : string) (s : BytesIO),
    remaining s + 2 <= fuel -> hex_loop fuel out_str s <> OutOfFuel.
Proof.
  induction fuel as [|fuel IH]; intros out_str s Hf; [lia|]. simpl.
  apply bind_terminates; [apply next_char_terminates|].
  intros ch s' Hr. after_read Hr; [discriminate|].
  destruct (len ch =? 0)%nat; [discriminate|].
  destruct (ch =? ">"); [discriminate|].
  apply IH. unfold remaining. rewrite Hb. lia.
Qed.

Lemma number_loop_terminates (fuel : nat) :
  forall (ch out_str : string) (s : BytesIO),
    remaining s + 2 <= fuel -> number_loop fuel ch out_str s <> OutOfFuel.
Proof.
  induction fuel as [|fuel IH]; intros ch out_str s Hf; [lia|]. simpl.
  destruct (negb (len ch =? 0)%nat && str_in ch "-+.0123456789");
    [|discriminate].
  apply bind_terminates; [apply next_char_terminates|].
  intros ch' s' Hr. after_read Hr.
  - destruct fuel; [lia | discriminate].
  - apply IH. unfold remaining. rewrite Hb. lia.
Qed.

Lemma string_loop_terminates (fuel : nat) :
  forall (level : Z) (out_str : string) (s : BytesIO),
    remaining s + 2 <= fuel -> string_loop fuel level out_str s <> OutOfFuel.
Proof.
  induction fuel as [|fuel IH]; intros level out_str s Hf; [lia|]. simpl.
  apply bind_terminates; [apply next_char_terminates|].
  intros ch s' Hr. after_read Hr; [discriminate|].
  destruct (len ch =? 0)%nat; [discriminate|].
  destruct (ch =? BACKSLASH).
  - apply bind_terminates; [apply next_char_terminates|].
    intros ch' s'' Hr'. apply next_char_result in Hr' as [Hb' [[-> ->] | (? & ? & ?)]];
      apply IH; unfold remaining; rewrite ?Hb', Hb; lia.
  - match goal with |- context [(?k =? 0)%Z] => destruct (k =? 0)%Z end;
      [discriminate|].
    apply IH. unfold remaining. rewrite Hb. lia.
Qed.

Lemma other_loop_terminates (fuel : nat) :
  forall (ch out_str : string) (s : BytesIO),
    remaining s + 2 <= fuel -> other_loop fuel ch out_str s <> OutOfFuel.
Proof.
  induction fuel as [|fuel IH]; intros ch out_str s Hf; [lia|]. simpl.
  destruct (negb (len ch =? 0)%nat); [|discriminate].
  apply bind_terminates; [apply is_delimiter_terminates|].
  intros w s' Hw. apply is_delimiter_result in Hw as ->.
  destruct (negb w); [|discriminate].
  apply bind_terminates; [apply next_char_terminates|].
  intros ch' s' Hr. after_read Hr.
  - destruct fuel; [lia | discriminate].
  - apply IH. unfold remaining. rewrite Hb. lia.
Qed.

Lemma push_back_terminates (ch : string) (s : BytesIO) :
  push_back ch s <> OutOfFuel.
Proof.
  unfold push_back. destruct (negb (len ch =? 0)%nat); [|discriminate].
  unfold bind, _prev_char, io_seek. simpl. discriminate.
Qed.

Lemma assert_terminates (cond : bool) (s : BytesIO) : assert cond s <> OutOfFuel.
Proof. destruct cond; discriminate. Qed.

Lemma tell_result (s s' : BytesIO) (p : Z) :
  io_tell s = Ret p s' -> s' = s /\ p = Z.of_nat (pos s).
Proof. unfold io_tell. intros H. now inversion H. Qed.

Lemma tell_terminates (s : BytesIO) : io_tell s <> OutOfFuel.
Proof. discriminate. Qed.

Ltac finish_token :=
  repeat first
    [ apply bind_terminates;
      [ first [ apply push_back_terminates | apply assert_terminates ]
      | intros ? ? _ ]
    | discriminate ].

Lemma lexeme_terminates (fuel : nat) (ch : string) (s : BytesIO) :
  remaining s + 2 <= fuel -> lexeme fuel ch s <> OutOfFuel.
Proof.
  intros Hf. unfold lexeme.
  repeat match goal with
         | |- (if ?b then _ else _) s <> OutOfFuel => destruct b
         end;
    (apply bind_terminates; [apply tell_terminates|]);
    intros p s' Ht; apply tell_result in Ht as [-> ->]; try discriminate.
  - (* NAME *)
    apply bind_terminates; [now apply name_loop_terminates|].
    intros [out_str ch'] s' _. finish_token.
  - (* END_DICT *)
    apply bind_terminates; [apply next_char_terminates|].
    intros ch' s' _. finish_token.
  - (* COMMENT *)
    apply bind_terminates; [now apply comment_loop_terminates|].
    intros [out_str ch'] s' _. finish_token.
  - (* HEX_STRING OR DICT *)
    apply bind_terminates; [apply next_char_terminates|].
    intros ch' s' Hr.
    destruct (ch' =? "<"); [discriminate|].
    destruct (ch' =? ">"); [discriminate|].
    apply bind_terminates; [|intros; discriminate].
    apply hex_loop_terminates.
    apply next_char_result in Hr as [Hb [[-> ->] | (? & ? & ?)]]; [exact Hf|].
    unfold remaining in *. rewrite Hb. lia.
  - (* NUMBER *)
    apply bind_terminates; [now apply number_loop_terminates|].
    intros [out_str ch'] s' _. finish_token.
  - (* STRING *)
    apply bind_terminates; [now apply string_loop_terminates|].
    intros [out_str ch'] s' _. finish_token.
  - (* OTHER *)
    apply bind_terminates; [now apply other_loop_terminates|].
    intros [out_str ch'] s' _. finish_token.
Qed.

(** The whitespace skip only moves the cursor forward. *)
Lemma whitespace_loop_result (fuel : nat) :
  forall (ch ch' : string) (s s' : BytesIO),
    whitespace_loop fuel ch s = Ret ch' s' ->
    buf s' = buf s /\ pos s <= pos s'.
Proof.
  induction fuel as [|fuel IH]; intros ch ch' s s' H; [discriminate|].
  simpl in H.
  destruct (0 <? len ch)%nat; [|inversion H; subst; split; auto].
  apply bind_Ret_inv in H as (w & s1 & Hw & H).
  apply is_whitespace_result in Hw as ->.
  destruct w; [|inversion H; subst; split; auto].
  apply bind_Ret_inv in H as (ch1 & s1 & Hr & H).
  apply IH in H as [Hb Hp].
  apply next_char_result in Hr as [Hb1 [[-> ->] | (? & ? & ?)]].
  - split; auto.
  - split; [congruence | lia].
Qed.

Lemma next_token_fuel_terminates (fuel : nat) (s : BytesIO) :
  remaining s + 2 <= fuel -> next_token_fuel fuel s <> OutOfFuel.
Proof.
  intros Hf. unfold next_token_fuel.
  apply bind_terminates; [apply next_char_terminates|].
  intros ch s1 Hr.
  destruct (len ch =? 0)%nat; [discriminate|].
  assert (H1 : remaining s1 + 2 <= fuel).
  { apply next_char_result in Hr as [Hb [[-> ->] | (? & ? & ?)]]; [exact Hf|].
    unfold remaining in *. rewrite Hb. lia. }
  apply bind_terminates; [now apply whitespace_loop_terminates|].
  intros ch' s2 Hw. apply whitespace_loop_result in Hw as [Hb Hp].
  apply lexeme_terminates. unfold remaining in *. rewrite Hb. lia.
Qed.

Lemma next_token_total (s : BytesIO) : next_token s <> OutOfFuel.
Proof.
  apply next_token_fuel_terminates. unfold fuel_of, remaining. lia.
Qed.

(** More fuel than a loop needs changes nothing. *)
Lemma bind_fuel {A B} (m : M A) (k k' : A -> M B) (s : BytesIO) :
  (forall a s', k a s' <> OutOfFuel -> k' a s' = k a s') ->
  bind m k s <> OutOfFuel -> bind m k' s = bind m k s.
Proof.
  unfold bind. intros Hk H. destruct (m s) as [a s'| |]; auto.
Qed.

Ltac more_fuel IH :=
  repeat first
    [ match goal with
      | |- (if ?b then _ else _) _ <> OutOfFuel -> _ => destruct b
      | |- (let '(_, _) := ?a in _) _ <> OutOfFuel -> _ => destruct a
      | |- bind _ _ _ <> OutOfFuel -> _ => apply bind_fuel; intros ? ?
      end
    | solve [ intros _; reflexivity ]
    | solve [ apply IH; lia ] ].

Lemma whitespace_loop_fuel (fuel : nat) :
  forall (fuel' : nat) (ch : string) (s : BytesIO),
    fuel <= fuel' -> whitespace_loop fuel ch s <> OutOfFuel ->
    whitespace_loop fuel' ch s = whitespace_loop fuel ch s.
Proof.
  induction fuel as [|fuel IH]; intros fuel' ch s Hf;
    [intros H; now contradiction H|].
  destruct fuel' as [|fuel']; [lia|].
  simpl. more_fuel IH.
Qed.

Lemma name_loop_fuel (fuel : nat) :
  forall (fuel' : nat) (out_str : string) (s : BytesIO),
    fuel <= fuel' -> name_loop fuel out_str s <> OutOfFuel ->
    name_loop fuel' out_str s = name_loop fuel out_str s.
Proof.
  induction fuel as [|fuel IH]; intros fuel' out_str s Hf;
    [intros H; now contradiction H|].
  destruct fuel' as [|fuel']; [lia|].
  simpl. more_fuel IH.
Qed.

Lemma comment_loop_fuel (fuel : nat) :
  forall (fuel' : nat) (ch out_str : string) (s : BytesIO),
    fuel <= fuel' -> comment_loop fuel ch out_str s <> OutOfFuel ->
    comment_loop fuel' ch out_str s = comment_loop fuel ch out_str s.
Proof.
  induction fuel as [|fuel IH]; intros fuel' ch out_str s Hf;
    [intros H; now contradiction H|].
  destruct fuel' as [|fuel']; [lia|].
  simpl. more_fuel IH.
Qed.

Lemma hex_loop_fuel (fuel : nat) :
  forall (fuel' : nat) (out_str : string) (s : BytesIO),
    fuel <= fuel' -> hex_loop fuel out_str s <> OutOfFuel ->
    hex_loop fuel' out_str s = hex_loop fuel out_str s.
Proof.
  induction fuel as [|fuel IH]; intros fuel' out_str s Hf;
    [intros H; now contradiction H|].
  destruct fuel' as [|fuel']; [lia|].
  simpl. more_fuel IH.
Qed.

Lemma number_loop_fuel (fuel : nat) :
  forall (fuel' : nat) (ch out_str : string) (s : BytesIO),
    fuel <= fuel' -> number_loop fuel ch out_str s <> OutOfFuel ->
    number_loop fuel' ch out_str s = number_loop fuel ch out_str s.
Proof.
  induction fuel as [|fuel IH]; intros fuel' ch out_str s Hf;
    [intros H; now contradiction H|].
  destruct fuel' as [|fuel']; [lia|].
  simpl. more_fuel IH.
Qed.

Lemma string_loop_fuel (fuel : nat) :
  forall (fuel' : nat) (level : Z) (out_str : string) (s : BytesIO),
    fuel <= fuel' -> string_loop fuel level out_str s <> OutOfFuel ->
    string_loop fuel' level out_str s = string_loop fuel level out_str s.
Proof.
  induction fuel as [|fuel IH]; intros fuel' level out_str s Hf;
    [intros H; now contradiction H|].
  destruct fuel' as [|fuel']; [lia|].
  simpl. more_fuel IH.
Qed.

Lemma other_loop_fuel (fuel : nat) :
  forall (fuel' : nat) (ch out_str : string) (s : BytesIO),
    fuel <= fuel' -> other_loop fuel ch out_str s <> OutOfFuel ->
    other_loop fuel' ch out_str s = other_loop fuel ch out_str s.
Proof.
  induction fuel as [|fuel IH]; intros fuel' ch out_str s Hf;
    [intros H; now contradiction H|].
  destruct fuel' as [|fuel']; [lia|].
  simpl. more_fuel IH.
Qed.

Lemma bind_head {A B} (m m' : M A) (k : A -> M B) (s : BytesIO) :
  m' s = m s -> bind m' k s = bind m k s.
Proof. unfold bind. now intros ->. Qed.

Lemma bind_head_terminates {A B} (m : M A) (k : A -> M B) (s : BytesIO) :
  bind m k s <> OutOfFuel -> m s <> OutOfFuel.
Proof. unfold bind. intros H E. apply H. now rewrite E. Qed.

Lemma lexeme_fuel (fuel fuel' : nat) (ch : string) (s : BytesIO) :
  fuel <= fuel' -> lexeme fuel ch s <> OutOfFuel ->
  lexeme fuel' ch s = lexeme fuel ch s.
Proof.
  intros Hf. unfold lexeme.
  repeat first
    [ match goal with
      | |- (if ?b then _ else _) _ <> OutOfFuel -> _ => destruct b
      | |- bind _ _ _ <> OutOfFuel -> bind ?m' _ _ = bind ?m _ _ =>
          intros H; apply bind_head_terminates in H; apply bind_head;
          first [ apply name_loop_fuel | apply comment_loop_fuel
                | apply hex_loop_fuel | apply number_loop_fuel
                | apply string_loop_fuel | apply other_loop_fuel ];
          [exact Hf | exact H]
      | |- bind _ _ _ <> OutOfFuel -> _ => apply bind_fuel; intros ? ?
      end
    | solve [ intros _; reflexivity ] ].
Qed.

Lemma next_token_fuel_fuel (fuel fuel' : nat) (s : BytesIO) :
  fuel <= fuel' -> next_token_fuel fuel s <> OutOfFuel ->
  next_token_fuel fuel' s = next_token_fuel fuel s.
Proof.
  intros Hf. unfold next_token_fuel.
  apply bind_fuel. intros ch s1.
  destruct (len ch =? 0)%nat; [reflexivity|].
  intros H.
  rewrite (bind_head (whitespace_loop fuel ch) (whitespace_loop fuel' ch))
    by (apply whitespace_loop_fuel;
        [exact Hf | exact (bind_head_terminates _ _ _ H)]).
  revert H. apply bind_fuel. intros ch' s2. now apply lexeme_fuel.
Qed.

(** Any fuel from two more than the bytes ahead gives the outcome that
    [next_token] has. *)
Lemma next_token_any_fuel (fuel : nat) (s : BytesIO) :
  remaining s + 2 <= fuel -> next_token_fuel fuel s = next_token s.
Proof.
  intros Hf. unfold next_token.
  pose proof (next_token_fuel_terminates (remaining s + 2) s (le_n _)) as H.
  rewrite (next_token_fuel_fuel (remaining s + 2) fuel) by auto.
  rewrite (next_token_fuel_fuel (remaining s + 2) (fuel_of s)); auto.
  unfold fuel_of, remaining. lia.
Qed.

(** C10. With fuel for two more iterations than there are bytes between the
    cursor and the end of the source, none of the loops of [next_token] (the
    whitespace skip and the loops of the NAME, COMMENT, HEX_STRING, NUMBER,
    STRING and OTHER cases) runs out of fuel, whatever the values of its
    variables, and neither does [next_token]: a call returns a token, the
    end of the stream or an exception, and returns the same with any such
    fuel. Each iteration that does not leave the loop has read a byte,
    which is what bounds their number. *)
Theorem next_token_terminates (s : BytesIO) (fuel : nat) :
  remaining s + 2 <= fuel ->
  (forall ch, whitespace_loop fuel ch s <> OutOfFuel)
  /\ (forall out_str, name_loop fuel out_str s <> OutOfFuel)
  /\ (forall ch out_str, comment_loop fuel ch out_str s <> OutOfFuel)
  /\ (forall out_str, hex_loop fuel out_str s <> OutOfFuel)
  /\ (forall ch out_str, number_loop fuel ch out_str s <> OutOfFuel)
  /\ (forall level out_str, string_loop fuel level out_str s <> OutOfFuel)
  /\ (forall ch out_str, other_loop fuel ch out_str s <> OutOfFuel)
  /\ next_token_fuel fuel s <> OutOfFuel
  /\ next_token s <> OutOfFuel
  /\ next_token_fuel fuel s = next_token s.
Proof.
  intros Hf. repeat split; intros; try now apply next_token_any_fuel.
  - now apply whitespace_loop_terminates.
  - now apply name_loop_terminates.
  - now apply comment_loop_terminates.
  - now apply hex_loop_terminates.
  - now apply number_loop_terminates.
  - now apply string_loop_terminates.
  - now apply other_loop_terminates.
  - now apply next_token_fuel_terminates.
  - apply next_token_total.
Qed.

Lemma next_token_terminates_witness :
  next_token_fuel 9 (mkBytesIO "/a (b" 3) <> OutOfFuel
  /\ string_loop 9 1 "(" (mkBytesIO "/a (b" 4) <> OutOfFuel
  /\ next_token_fuel 9 (mkBytesIO "/a (b" 3) = next_token (mkBytesIO "/a (b" 3).
Proof.
  split; [|split].
  - apply (next_token_terminates (mkBytesIO "/a (b" 3) 9). vm_compute; lia.
  - apply (next_token_terminates (mkBytesIO "/a (b" 4) 9). vm_compute; lia.
  - apply (next_token_terminates (mkBytesIO "/a (b" 3) 9). vm_compute; lia.
Defined.

(** ** What a call returns *)

Ltac invert_run H :=
  repeat first
    [ match type of H with
      | bind _ _ _ = Ret _ _ =>
          let a := fresh "a" in
          let s := fresh "s" in
          let E := fresh "E" in
          apply bind_Ret_inv in H as (a & s & E & H)
      | (let '(_, _) := ?x in _) _ = _ => destruct x
      | (if ?b then _ else _) _ = _ => destruct b eqn:?
      end ].

(** Every token [next_token] builds is placed one byte before the cursor
    as the whitespace skip left it. *)
Lemma lexeme_byte_offset (fuel : nat) (ch : string) (s1 s2 : BytesIO) (t : Token) :
  lexeme fuel ch s1 = Ret (Some t) s2 ->
  byte_offset t = (Z.of_nat (pos s1) - 1)%Z.
Proof.
  intros H. unfold lexeme in H.
  repeat match type of H with
         | (if ?b then _ else _) _ = _ => destruct b eqn:?
         end;
    apply bind_Ret_inv in H as (p & s' & Ht & H);
    apply tell_result in Ht as [-> ->];
    invert_run H;
    try (inversion H; subst; reflexivity).
Qed.

Lemma push_back_result (ch : string) (s s' : BytesIO) (u : unit) :
  push_back ch s = Ret u s' ->
  buf s' = buf s /\
  ((ch = "" /\ s' = s) \/ (ch <> "" /\ pos s' = pos s - 1)).
Proof.
  unfold push_back. destruct ch as [|c ch]; simpl.
  - intros H. inversion H. split; [reflexivity | now left].
  - unfold bind, _prev_char, io_seek, ret. simpl. intros H. inversion H; subst.
    split; [reflexivity|]. right. split; [discriminate|]. simpl. lia.
Qed.

Lemma comment_loop_result (fuel : nat) :
  forall (ch out_str ch' out_str' : string) (s s' : BytesIO),
    comment_loop fuel ch out_str s = Ret (out_str', ch') s' ->
    buf s' = buf s /\
    ((ch' = ch /\ s' = s) \/
     (pos s <= pos s' /\ (ch' <> "" -> pos s < pos s'))).
Proof.
  induction fuel as [|fuel IH]; intros ch out_str ch' out_str' s s' H;
    [discriminate|].
  simpl in H.
  destruct (negb (len ch =? 0)%nat && negb (ch =? CR) && negb (ch =? LF)).
  - apply bind_Ret_inv in H as (ch1 & s1 & Hr & H).
    apply IH in H as [Hb H].
    apply next_char_result in Hr as [Hb1 [[-> ->] | (L & P & _)]].
    + split; [exact Hb|]. right.
      destruct H as [[-> ->] | [H1 H2]]; [split; [lia | congruence] | now split].
    + split; [congruence|]. right.
      destruct H as [[-> ->] | [H1 H2]]; split; lia.
  - inversion H; subst. split; [reflexivity | now left].
Qed.

(** A COMMENT token leaves the source as it is and the cursor behind the
    ["%"] that opened the comment. *)
Lemma lexeme_comment (fuel : nat) (ch : string) (s1 s2 : BytesIO) (t : Token) :
  lexeme fuel ch s1 = Ret (Some t) s2 ->
  token_type t = COMMENT ->
  buf s2 = buf s1 /\ pos s1 <= pos s2.
Proof.
  intros H Hc. unfold lexeme in H.
  repeat match type of H with
         | (if ?b then _ else _) _ = _ => destruct b eqn:?
         end;
    apply bind_Ret_inv in H as (p & s' & Ht & H);
    apply tell_result in Ht as [-> ->];
    invert_run H;
    try (inversion H; subst; discriminate Hc).
  (* COMMENT *)
  inversion H; subst; clear H Hc.
  match goal with Hq : (ch =? "%") = true |- _ =>
    apply String.eqb_eq in Hq; subst ch end.
  match goal with El : comment_loop _ _ _ _ = _ |- _ => rename El into Hloop end.
  match goal with Ep : push_back _ _ = _ |- _ => rename Ep into Hpush end.
  destruct fuel as [|fuel]; [discriminate|].
  simpl in Hloop.
  apply bind_Ret_inv in Hloop as (ch1 & sa & Hr & Hloop).
  apply comment_loop_result in Hloop as [Hb E].
  apply next_char_result in Hr as [Hb1 Hr].
  apply push_back_result in Hpush as [Hb2 [[-> ->] | [N P]]].
  - split; [congruence|].
    destruct Hr as [[-> ->] | (L & Q & _)];
      destruct E as [[_ ->] | [H1 _]]; lia.
  - split; [congruence|].
    destruct Hr as [[-> ->] | (L & Q & _)];
      destruct E as [[-> ->] | [H1 H2]];
      try specialize (H2 N); try lia; try congruence.
Qed.

Lemma all_bytes_append (P : ascii -> bool) (a b : string) :
  all_bytes P (a ++ b) = all_bytes P a && all_bytes P b.
Proof.
  induction a as [|c a IH]; simpl; [reflexivity|].
  now rewrite IH, andb_assoc.
Qed.

Lemma whitespace_split (rest : string) :
  exists ws r,
    rest = ws ++ r /\ all_bytes whitespace_byte ws = true /\
    (r = "" \/ exists d r', r = String d r' /\ whitespace_byte d = false).
Proof.
  induction rest as [|c rest (ws & r & E & Hws & Hr)].
  - exists "", "". auto.
  - destruct (whitespace_byte c) eqn:Hc.
    + exists (String c ws), r. subst rest. simpl. rewrite Hc. auto.
    + exists "", (String c rest). repeat split. right. eauto.
Qed.

Lemma string_last (c : ascii) (a : string) :
  exists init l, String c a = init ++ String l "".
Proof.
  revert c. induction a as [|d a IH]; intros c.
  - now exists "", c.
  - destruct (IH d) as (init & l & E). exists (String c init), l.
    simpl. now rewrite E.
Qed.

(** The three ways a call of [next_token] can start: at or past the end of
    the source; before whitespace that lasts to the end; before whitespace
    and then another byte. *)
Lemma cursor_cases (s : BytesIO) :
  len (buf s) <= pos s
  \/ (exists pre c ws,
        s = at_cursor pre (String c ws)
        /\ all_bytes whitespace_byte (String c ws) = true)
  \/ (exists pre ws d rest,
        s = at_cursor pre (ws ++ String d rest)
        /\ all_bytes whitespace_byte ws = true /\ whitespace_byte d = false).
Proof.
  destruct (le_lt_dec (len (buf s)) (pos s)) as [L|L]; [now left | right].
  destruct (at_cursor_split s) as (pre & rest & ->); [lia|].
  destruct (whitespace_split rest) as (ws & r & -> & Hws & [-> | (d & r' & -> & Hd)]).
  - left. rewrite append_nil_r in *.
    destruct ws as [|c ws].
    + unfold at_cursor in L. simpl in L. rewrite append_nil_r in L. lia.
    + now exists pre, c, ws.
  - right. now exists pre, ws, d, r'.
Qed.

Lemma seek_set (o : nat) (s : BytesIO) :
  seek (Z.of_nat o) SEEK_SET s = Ret (Z.of_nat o) (mkBytesIO (buf s) o).
Proof.
  unfold seek, io_seek. simpl.
  destruct (Z.ltb_spec (Z.of_nat o) 0); [lia|]. now rewrite Nat2Z.id.
Qed.

(** ** Re-scanning *)

(** C8. A token [t] returned by [next_token] is returned again, and the
    cursor left in the same place, by a call made after a seek to the
    absolute offset [byte_offset t], from wherever the cursor then stands.
    And after a seek to an offset that [tell] returned earlier, any number
    of calls of [next_token] return what they returned from there before. *)
Theorem rescan_reproduces_token (s s' : BytesIO) (t : Token) :
  next_token s = Ret (Some t) s' ->
  (forall s0, buf s0 = buf s ->
     (seek (byte_offset t) SEEK_SET ;; next_token) s0 = Ret (Some t) s')
  /\ (forall (s1 s1' s0 : BytesIO) (o : Z) (n : nat),
        tell s1 = Ret o s1' -> buf s0 = buf s1 ->
        (seek o SEEK_SET ;; next_tokens n) s0 = next_tokens n s1).
Proof.
  intros H. split.
  - intros s0 Hb.
    destruct (cursor_cases s)
      as [L | [(pre & c & ws & -> & Hws) | (pre & ws & d & rest & -> & Hws & Hd)]].
    + unfold next_token in H. rewrite next_token_fuel_end in H by exact L.
      discriminate.
    + rewrite next_token_whitespace_only in H by exact Hws.
      inversion H; subst t s'; clear H. cbn [byte_offset].
      destruct (string_last c ws) as (init & l & E). rewrite E in *.
      replace (Z.of_nat (len (pre ++ init ++ String l "")) - 1)%Z
        with (Z.of_nat (len (pre ++ init)))
        by (rewrite <- append_assoc, (len_append (pre ++ init)); simpl; lia).
      rewrite (bind_Ret _ _ _ _ _ (seek_set _ s0)).
      replace (mkBytesIO (buf s0) (len (pre ++ init)))
        with (at_cursor (pre ++ init) (String l ""))
        by (unfold at_cursor; rewrite Hb; unfold at_cursor; simpl;
            now rewrite append_assoc).
      rewrite all_bytes_append in Hws. apply andb_prop in Hws as [_ Hl].
      rewrite next_token_whitespace_only by exact Hl.
      rewrite !append_assoc, <- (append_assoc pre init), (len_append (pre ++ init)).
      simpl len.
      replace (Z.of_nat (len (pre ++ init) + 1) - 1)%Z
        with (Z.of_nat (len (pre ++ init))) by lia.
      reflexivity.
    + rewrite next_token_lexeme in H by auto.
      pose proof (lexeme_byte_offset _ _ _ _ _ H) as Ho.
      rewrite tell_before in Ho. rewrite Ho.
      rewrite (bind_Ret _ _ _ _ _ (seek_set _ s0)).
      replace (mkBytesIO (buf s0) (len (pre ++ ws)))
        with (at_cursor (pre ++ ws) ("" ++ String d rest))
        by (unfold at_cursor; rewrite Hb; unfold at_cursor; simpl;
            now rewrite append_assoc).
      rewrite next_token_lexeme by auto.
      rewrite append_nil_r. simpl append at 2.
      rewrite (append_assoc pre ws). exact H.
  - intros s1 s1' s0 o n Ht Hb.
    apply tell_result in Ht as [_ ->].
    rewrite (bind_Ret _ _ _ _ _ (seek_set _ s0)).
    rewrite Hb. now destruct s1.
Qed.

Lemma rescan_reproduces_token_witness :
  (seek 3 SEEK_SET ;; next_token) (mkBytesIO "12 /N" 5)
  = Ret (Some (mkToken 3 NAME "/N")) (mkBytesIO "12 /N" 5)
  /\ (seek 2 SEEK_SET ;; next_tokens 2) (mkBytesIO "12 /N" 5)
     = next_tokens 2 (mkBytesIO "12 /N" 2).
Proof.
  pose proof (rescan_reproduces_token (mkBytesIO "12 /N" 2) (mkBytesIO "12 /N" 5)
                (mkToken 3 NAME "/N") eq_refl) as [H1 H2].
  split.
  - exact (H1 (mkBytesIO "12 /N" 5) eq_refl).
  - exact (H2 (mkBytesIO "12 /N" 2) (mkBytesIO "12 /N" 2) (mkBytesIO "12 /N" 5)
              2%Z 2 eq_refl eq_refl).
Defined.

(** ** Skipping comments *)

Lemma TokenType_eqb_eq (a b : TokenType) :
  TokenType_eqb a b = true <-> a = b.
Proof. split; [destruct a, b; (reflexivity || discriminate) | intros ->; now destruct b]. Qed.

Lemma next_token_comment (s s' : BytesIO) (t : Token) :
  next_token s = Ret (Some t) s' -> token_type t = COMMENT ->
  buf s' = buf s /\ remaining s' < remaining s.
Proof.
  intros H Hc.
  destruct (cursor_cases s)
    as [L | [(pre & c & ws & -> & Hws) | (pre & ws & d & rest & -> & Hws & Hd)]].
  - unfold next_token in H. rewrite next_token_fuel_end in H by exact L.
    discriminate.
  - rewrite next_token_whitespace_only in H by exact Hws.
    inversion H; subst t. discriminate.
  - rewrite next_token_lexeme in H by auto.
    apply lexeme_comment in H as [Hb Hp]; [|exact Hc].
    unfold remaining. rewrite Hb.
    unfold at_cursor in *. simpl in *.
    rewrite !append_assoc. split; [reflexivity|].
    rewrite !len_append in *. simpl in *. lia.
Qed.

Lemma discard_comments_skips (n : nat) :
  forall (s0 s1 : BytesIO) (t : option Token),
    next_token s0 = Ret t s1 -> remaining s0 < n ->
    skips_comments s0 (discard_comments n (fuel_of s0) t s1).
Proof.
  induction n as [|n IH]; intros s0 s1 t H Hn; [lia|]. simpl.
  destruct t as [tok|];
    [|unfold ret; rewrite <- H; apply skips_done; rewrite H; discriminate].
  destruct (TokenType_eqb (token_type tok) COMMENT) eqn:Hc.
  - apply TokenType_eqb_eq in Hc.
    destruct (next_token_comment _ _ _ H Hc) as [Hb Hr].
    assert (Hf : fuel_of s0 = fuel_of s1) by (unfold fuel_of; now rewrite Hb).
    rewrite Hf. unfold bind.
    change (next_token_fuel (fuel_of s1) s1) with (next_token s1).
    destruct (next_token s1) as [t' s2|e s2|] eqn:E.
    + apply (skips_next s0 s1 tok); auto. apply IH; [exact E | lia].
    + apply (skips_next s0 s1 tok); auto.
      rewrite <- E. apply skips_done. rewrite E. discriminate.
    + now apply next_token_total in E.
  - unfold ret. rewrite <- H. apply skips_done. rewrite H.
    intros t s' Ht. inversion Ht; subst. intros N.
    apply TokenType_eqb_eq in N. congruence.
Qed.

Lemma skips_comments_terminates (s : BytesIO) (r : outcome (option Token)) :
  skips_comments s r -> r <> OutOfFuel /\ not_comment r.
Proof.
  induction 1 as [s Hn | s s' t r _ _ _ IH]; [|exact IH].
  split; [apply next_token_total | exact Hn].
Qed.

(** C9. [next_non_comment_token] returns what the first call of
    [next_token] that does not return a COMMENT token returns (a token, the
    end of the stream, or the exception it raises), the calls before it
    having returned COMMENT tokens; it does so for every source. On
    ["% a comment\n123"], [next_token] returns the COMMENT token
    ["% a comment"] and leaves the cursor on the line feed, then returns the
    NUMBER token ["123"]; [next_non_comment_token] on that input returns the
    NUMBER token at once. *)
Theorem next_non_comment_token_skips_comments :
  (forall s : BytesIO,
     skips_comments s (next_non_comment_token s)
     /\ not_comment (next_non_comment_token s)
     /\ next_non_comment_token s <> OutOfFuel)
  /\ (let src := "% a comment" ++ LF ++ "123" in
      next_token (tokenizer src)
      = Ret (Some (mkToken 0 COMMENT "% a comment")) (mkBytesIO src 11)
      /\ String.substring 11 1 src = LF
      /\ next_token (mkBytesIO src 11)
         = Ret (Some (mkToken 12 NUMBER "123")) (mkBytesIO src 15)
      /\ next_non_comment_token (tokenizer src)
         = Ret (Some (mkToken 12 NUMBER "123")) (mkBytesIO src 15)).
Proof.
  split; [|repeat split].
  intros s.
  assert (H : skips_comments s (next_non_comment_token s)).
  { unfold next_non_comment_token, next_non_comment_token_fuel, bind.
    change (next_token_fuel (fuel_of s) s) with (next_token s).
    destruct (next_token s) as [t s1|e s1|] eqn:E.
    - apply discard_comments_skips; [exact E|]. unfold fuel_of, remaining. lia.
    - rewrite <- E. apply skips_done. rewrite E. discriminate.
    - now apply next_token_total in E. }
  apply skips_comments_terminates in H as H'. tauto.
Qed.

(** * Further properties of the scanner *)

(** ** Runs of bytes *)

Lemma span_bytes_spec (P : ascii -> bool) (s : string) :
  s = fst (span_bytes P s) ++ snd (span_bytes P s)
  /\ all_bytes P (fst (span_bytes P s)) = true
  /\ (snd (span_bytes P s) = ""
      \/ exists c r, snd (span_bytes P s) = String c r /\ P c = false).
Proof.
  induction s as [|c s (E & A & R)]; simpl.
  - auto.
  - destruct (P c) eqn:Pc.
    + destruct (span_bytes P s) as [run r]; simpl in *.
      rewrite Pc, A. repeat split; auto. congruence.
    + simpl. repeat split. right. eauto.
Qed.

Lemma first_after (r : string) : first_byte r ++ after_first r = r.
Proof. now destruct r. Qed.

Lemma push_back_first (pre r : string) :
  push_back (first_byte r) (at_cursor (pre ++ first_byte r) (after_first r))
  = Ret tt (at_cursor pre r).
Proof.
  destruct r as [|c r]; simpl first_byte; simpl after_first.
  - now rewrite append_nil_r.
  - apply push_back_cons.
Qed.

Lemma str_in_number_byte (c : ascii) :
  str_in (String c "") "-+.0123456789" = number_byte c.
Proof.
  destruct c as [b0 b1 b2 b3 b4 b5 b6 b7].
  destruct b0, b1, b2, b3, b4, b5, b6, b7; reflexivity.
Qed.

Lemma eqb_CR (c : ascii) : (String c "" =? CR) = Ascii.eqb c (ascii_of_nat 13).
Proof. apply eqb_single. Qed.

Lemma eqb_LF (c : ascii) : (String c "" =? LF) = Ascii.eqb c (ascii_of_nat 10).
Proof. apply eqb_single. Qed.

(** ** The loops as runs *)

Lemma name_loop_span (rest : string) :
  forall (fuel : nat) (out_str pre : string),
    len rest + 1 <= fuel ->
    name_loop fuel out_str (at_cursor pre rest)
    = let (run, r) := span_bytes regular_byte rest in
      Ret (out_str ++ run, first_byte r)
          (at_cursor (pre ++ run ++ first_byte r) (after_first r)).
Proof.
  induction rest as [|c rest IH]; intros fuel out_str pre Hf;
    (destruct fuel as [|fuel]; [simpl in Hf; lia|]); simpl.
  - rewrite (bind_Ret _ _ _ _ _ (next_char_nil _)). simpl.
    now rewrite !append_nil_r.
  - rewrite (bind_Ret _ _ _ _ _ (next_char_cons _ _ _)). simpl.
    rewrite (bind_Ret _ _ _ _ _ (is_delimiter_byte _ _)).
    unfold regular_byte at 1. destruct (delimiter_byte c); simpl.
    + now rewrite append_nil_r.
    + rewrite IH by (simpl in Hf; lia).
      destruct (span_bytes regular_byte rest) as [run r].
      now rewrite !append_assoc.
Qed.

Lemma span_bytes_cons (P : ascii -> bool) (c : ascii) (s : string) :
  span_bytes P (String c s)
  = if P c then (String c (fst (span_bytes P s)), snd (span_bytes P s))
    else ("", String c s).
Proof. simpl. destruct (P c); [|reflexivity]. now destruct (span_bytes P s). Qed.

Lemma other_loop_span (rest : string) :
  forall (fuel : nat) (d : ascii) (out_str pre : string),
    len rest + 2 <= fuel ->
    other_loop fuel (String d "") out_str (at_cursor (pre ++ String d "") rest)
    = let (run, r) := span_bytes regular_byte (String d rest) in
      Ret (out_str ++ run, first_byte r)
          (at_cursor (pre ++ run ++ first_byte r) (after_first r)).
Proof.
  induction rest as [|e rest IH]; intros fuel d out_str pre Hf;
    (destruct fuel as [|fuel]; [simpl in Hf; lia|]);
    simpl other_loop; cbv beta;
    change (negb (len (String d "") =? 0)%nat) with true; cbv iota;
    rewrite (bind_Ret _ _ _ _ _ (is_delimiter_byte _ _));
    rewrite (span_bytes_cons _ d); unfold regular_byte at 1;
    destruct (delimiter_byte d); cbn [negb];
    try (simpl; now rewrite append_nil_r).
  - rewrite (bind_Ret _ _ _ _ _ (next_char_nil _)).
    destruct fuel as [|fuel]; [simpl in Hf; lia|]. simpl.
    now rewrite ?append_nil_r.
  - rewrite (bind_Ret _ _ _ _ _ (next_char_cons _ _ _)).
    rewrite IH by (simpl in Hf; lia).
    destruct (span_bytes regular_byte (String e rest)) as [run r].
    simpl fst; simpl snd. cbv iota beta.
    now rewrite !append_assoc.
Qed.

Lemma comment_loop_S (fuel : nat) (d : ascii) (out_str : string) (s : BytesIO) :
  comment_loop (S fuel) (String d "") out_str s
  = if comment_byte d
    then bind _next_char (fun ch => comment_loop fuel ch (out_str ++ String d "")) s
    else Ret (out_str, String d "") s.
Proof.
  cbn [comment_loop]. rewrite eqb_CR, eqb_LF.
  change (negb (len (String d "") =? 0)%nat) with true. cbn [andb].
  unfold comment_byte. now destruct (_ && _).
Qed.

Lemma number_loop_S (fuel : nat) (d : ascii) (out_str : string) (s : BytesIO) :
  number_loop (S fuel) (String d "") out_str s
  = if number_byte d
    then bind _next_char (fun ch => number_loop fuel ch (out_str ++ String d "")) s
    else Ret (out_str, String d "") s.
Proof.
  cbn [number_loop]. rewrite str_in_number_byte.
  change (negb (len (String d "") =? 0)%nat) with true. cbn [andb].
  now destruct (number_byte d).
Qed.

Lemma comment_loop_span (rest : string) :
  forall (fuel : nat) (d : ascii) (out_str pre : string),
    len rest + 2 <= fuel ->
    comment_loop fuel (String d "") out_str (at_cursor (pre ++ String d "") rest)
    = let (run, r) := span_bytes comment_byte (String d rest) in
      Ret (out_str ++ run, first_byte r)
          (at_cursor (pre ++ run ++ first_byte r) (after_first r)).
Proof.
  induction rest as [|e rest IH]; intros fuel d out_str pre Hf;
    (destruct fuel as [|fuel]; [simpl in Hf; lia|]);
    rewrite comment_loop_S, (span_bytes_cons _ d);
    destruct (comment_byte d);
    try (simpl; now rewrite append_nil_r).
  - rewrite (bind_Ret _ _ _ _ _ (next_char_nil _)).
    destruct fuel as [|fuel]; [simpl in Hf; lia|]. simpl.
    now rewrite ?append_nil_r.
  - rewrite (bind_Ret _ _ _ _ _ (next_char_cons _ _ _)).
    rewrite IH by (simpl in Hf; lia).
    destruct (span_bytes comment_byte (String e rest)) as [run r].
    simpl fst; simpl snd. cbv iota beta.
    now rewrite !append_assoc.
Qed.

Lemma number_loop_span (rest : string) :
  forall (fuel : nat) (d : ascii) (out_str pre : string),
    len rest + 2 <= fuel ->
    number_loop fuel (String d "") out_str (at_cursor (pre ++ String d "") rest)
    = let (run, r) := span_bytes number_byte (String d rest) in
      Ret (out_str ++ run, first_byte r)
          (at_cursor (pre ++ run ++ first_byte r) (after_first r)).
Proof.
  induction rest as [|e rest IH]; intros fuel d out_str pre Hf;
    (destruct fuel as [|fuel]; [simpl in Hf; lia|]);
    rewrite number_loop_S, (span_bytes_cons _ d);
    destruct (number_byte d);
    try (simpl; now rewrite append_nil_r).
  - rewrite (bind_Ret _ _ _ _ _ (next_char_nil _)).
    destruct fuel as [|fuel]; [simpl in Hf; lia|]. simpl.
    now rewrite ?append_nil_r.
  - rewrite (bind_Ret _ _ _ _ _ (next_char_cons _ _ _)).
    rewrite IH by (simpl in Hf; lia).
    destruct (span_bytes number_byte (String e rest)) as [run r].
    simpl fst; simpl snd. cbv iota beta.
    now rewrite !append_assoc.
Qed.

Lemma hex_loop_span (body : string) :
  forall (fuel : nat) (out_str pre : string),
    len body + 1 <= fuel ->
    hex_loop fuel out_str (at_cursor pre body)
    = let (run, r) := span_bytes (is_not ">") body in
      Ret (out_str ++ run ++ first_byte r)
          (at_cursor (pre ++ run ++ first_byte r) (after_first r)).
Proof.
  induction body as [|d body IH]; intros fuel out_str pre Hf;
    (destruct fuel as [|fuel]; [simpl in Hf; lia|]).
  - simpl. rewrite (bind_Ret _ _ _ _ _ (next_char_nil _)). simpl.
    now rewrite !append_nil_r.
  - rewrite hex_loop_S, span_bytes_cons. unfold is_not at 1.
    destruct (Ascii.eqb_spec d ">") as [->|Hd]; cbn [negb].
    + reflexivity.
    + rewrite IH by (simpl in Hf; lia).
      destruct (span_bytes (is_not ">") body) as [run r].
      simpl fst; simpl snd. cbv iota beta.
      now rewrite !append_assoc.
Qed.

(** ** The cases of the dispatch *)

Lemma dispatch_byte_false (d : ascii) :
  dispatch_byte d = false ->
  (String d "" =? "[") = false /\ (String d "" =? "]") = false
  /\ (String d "" =? "/") = false /\ (String d "" =? ">") = false
  /\ (String d "" =? "%") = false /\ (String d "" =? "<") = false
  /\ (String d "" =? "(") = false.
Proof.
  intros H. rewrite !eqb_single.
  unfold dispatch_byte in H. simpl in H.
  repeat (apply orb_false_elim in H as [? H]). auto 10.
Qed.

Lemma number_byte_dispatch (d : ascii) :
  number_byte d = true -> dispatch_byte d = false /\ whitespace_byte d = false.
Proof.
  destruct d as [b0 b1 b2 b3 b4 b5 b6 b7].
  destruct b0, b1, b2, b3, b4, b5, b6, b7;
    (discriminate || (intros _; split; reflexivity)).
Qed.

Lemma lexeme_name (fuel : nat) (pre rest : string) :
  len rest + 1 <= fuel ->
  lexeme fuel "/" (at_cursor (pre ++ "/") rest)
  = let (run, r) := span_bytes regular_byte rest in
    Ret (Some (mkToken (Z.of_nat (len pre)) NAME ("/" ++ run)))
        (at_cursor (pre ++ "/" ++ run) r).
Proof.
  intros Hf. unfold lexeme. simpl.
  unfold bind at 1. unfold io_tell. rewrite tell_before.
  unfold bind at 1. rewrite name_loop_span by exact Hf.
  destruct (span_bytes regular_byte rest) as [run r].
  rewrite <- append_assoc.
  rewrite (bind_Ret _ _ _ _ _ (push_back_first _ _)).
  unfold ret. now rewrite append_assoc.
Qed.

Lemma lexeme_comment_run (fuel : nat) (pre rest : string) :
  len rest + 2 <= fuel ->
  lexeme fuel "%" (at_cursor (pre ++ "%") rest)
  = let (run, r) := span_bytes comment_byte rest in
    Ret (Some (mkToken (Z.of_nat (len pre)) COMMENT ("%" ++ run)))
        (at_cursor (pre ++ "%" ++ run) r).
Proof.
  intros Hf. unfold lexeme. simpl.
  unfold bind at 1. unfold io_tell. rewrite tell_before.
  unfold bind at 1. rewrite comment_loop_span by exact Hf.
  rewrite span_bytes_cons. change (comment_byte "%") with true. cbv iota.
  destruct (span_bytes comment_byte rest) as [run r]. simpl fst; simpl snd.
  rewrite <- append_assoc.
  rewrite (bind_Ret _ _ _ _ _ (push_back_first _ _)).
  reflexivity.
Qed.

Lemma lexeme_number (fuel : nat) (d : ascii) (pre rest : string) :
  number_byte d = true -> len rest + 2 <= fuel ->
  lexeme fuel (String d "") (at_cursor (pre ++ String d "") rest)
  = let (run, r) := span_bytes number_byte (String d rest) in
    Ret (Some (mkToken (Z.of_nat (len pre)) NUMBER run)) (at_cursor (pre ++ run) r).
Proof.
  intros Hd Hf. unfold lexeme.
  destruct (number_byte_dispatch d Hd) as [Hn _].
  destruct (dispatch_byte_false d Hn) as (E1 & E2 & E3 & E4 & E5 & E6 & E7).
  rewrite E1, E2, E3, E4, E5, E6, str_in_number_byte, Hd.
  unfold bind at 1. unfold io_tell. rewrite tell_before.
  unfold bind at 1. rewrite number_loop_span by exact Hf.
  destruct (span_bytes number_byte (String d rest)) as [run r].
  rewrite <- append_assoc.
  rewrite (bind_Ret _ _ _ _ _ (push_back_first _ _)).
  reflexivity.
Qed.

Lemma lexeme_other (fuel : nat) (d : ascii) (pre rest : string) :
  dispatch_byte d = false -> number_byte d = false ->
  len rest + 2 <= fuel ->
  lexeme fuel (String d "") (at_cursor (pre ++ String d "") rest)
  = let (run, r) := span_bytes regular_byte (String d rest) in
    Ret (Some (mkToken (Z.of_nat (len pre)) OTHER run)) (at_cursor (pre ++ run) r).
Proof.
  intros Hn Hd Hf. unfold lexeme.
  destruct (dispatch_byte_false d Hn) as (E1 & E2 & E3 & E4 & E5 & E6 & E7).
  rewrite E1, E2, E3, E4, E5, E6, E7, str_in_number_byte, Hd.
  unfold bind at 1. unfold io_tell. rewrite tell_before.
  unfold bind at 1. rewrite other_loop_span by exact Hf.
  destruct (span_bytes regular_byte (String d rest)) as [run r].
  rewrite <- append_assoc.
  rewrite (bind_Ret _ _ _ _ _ (push_back_first _ _)).
  reflexivity.
Qed.

Lemma lexeme_hex_string (fuel : nat) (pre rest : string) :
  String.prefix "<" rest = false -> len rest + 1 <= fuel ->
  lexeme fuel "<" (at_cursor (pre ++ "<") rest)
  = let (run, r) := span_bytes (is_not ">") rest in
    Ret (Some (mkToken (Z.of_nat (len pre)) HEX_STRING ("<" ++ run ++ first_byte r)))
        (at_cursor (pre ++ "<" ++ run ++ first_byte r) (after_first r)).
Proof.
  intros Hp Hf. unfold lexeme. simpl.
  unfold bind at 1. unfold io_tell. rewrite tell_before.
  destruct rest as [|d rest].
  - rewrite (bind_Ret _ _ _ _ _ (next_char_nil _)). simpl.
    rewrite (bind_Ret _ _ _ _ _ (hex_loop_span "" fuel "<" (pre ++ "<") Hf)).
    simpl. unfold ret. now rewrite !append_nil_r.
  - rewrite (bind_Ret _ _ _ _ _ (next_char_cons _ _ _)).
    assert (Hd : Ascii.eqb d "<" = false).
    { simpl in Hp. destruct (Ascii.ascii_dec "<" d) as [E|E].
      - subst d. now destruct rest.
      - apply Ascii.eqb_neq. congruence. }
    rewrite !eqb_single, Hd, span_bytes_cons. unfold is_not at 1.
    destruct (Ascii.eqb_spec d ">") as [->|Hn]; cbn [negb].
    + unfold ret. simpl. now rewrite append_assoc.
    + unfold bind at 1. rewrite hex_loop_span by (simpl in Hf; lia).
      destruct (span_bytes (is_not ">") rest) as [run r]. simpl fst; simpl snd.
      unfold ret. now rewrite !append_assoc.
Qed.

Lemma lexeme_start_dict (fuel : nat) (pre rest : string) :
  lexeme fuel "<" (at_cursor (pre ++ "<") ("<" ++ rest))
  = Ret (Some (mkToken (Z.of_nat (len pre)) START_DICT "<<"))
        (at_cursor (pre ++ "<<") rest).
Proof.
  unfold lexeme. simpl.
  unfold bind at 1. unfold io_tell. rewrite tell_before.
  rewrite (bind_Ret _ _ _ _ _ (next_char_cons _ _ _)). simpl.
  unfold ret. now rewrite append_assoc.
Qed.

Lemma lexeme_start_array (fuel : nat) (pre rest : string) :
  lexeme fuel "[" (at_cursor (pre ++ "[") rest)
  = Ret (Some (mkToken (Z.of_nat (len pre)) START_ARRAY "["))
        (at_cursor (pre ++ "[") rest).
Proof.
  unfold lexeme. simpl. unfold bind, io_tell, ret. now rewrite tell_before.
Qed.

Lemma lexeme_end_array (fuel : nat) (pre rest : string) :
  lexeme fuel "]" (at_cursor (pre ++ "]") rest)
  = Ret (Some (mkToken (Z.of_nat (len pre)) END_ARRAY "]"))
        (at_cursor (pre ++ "]") rest).
Proof.
  unfold lexeme. simpl. unfold bind, io_tell, ret. now rewrite tell_before.
Qed.

Lemma span_bytes_run (P : ascii -> bool) (s run r : string) :
  span_bytes P s = (run, r) ->
  s = run ++ r /\ all_bytes P run = true /\ stops_at P r.
Proof.
  intros E. pose proof (span_bytes_spec P s) as H. now rewrite E in H.
Qed.

Lemma string_length_append (a b : string) :
  String.length (a ++ b) = String.length a + String.length b.
Proof. exact (len_append a b). Qed.

Ltac fuel_bound :=
  unfold len;
  repeat first [ rewrite string_length_append | progress simpl String.length ];
  lia.

Lemma span_bytes_append (P : ascii -> bool) (run r : string) :
  all_bytes P run = true -> stops_at P r -> span_bytes P (run ++ r) = (run, r).
Proof.
  intros Hrun Hr. induction run as [|c run IH]; simpl in *.
  - destruct Hr as [-> | (c & r' & -> & Hc)]; [reflexivity|].
    simpl. now rewrite Hc.
  - apply andb_prop in Hrun as [Hc Hrun]. now rewrite Hc, IH.
Qed.

Lemma regular_byte_dispatch (d : ascii) :
  regular_byte d = true -> dispatch_byte d = false /\ whitespace_byte d = false.
Proof.
  destruct d as [b0 b1 b2 b3 b4 b5 b6 b7].
  destruct b0, b1, b2, b3, b4, b5, b6, b7;
    (discriminate || (intros _; split; reflexivity)).
Qed.

(** ** Names, numbers, keywords and comments *)

(** X1. A name: after whitespace, a ["/"], then bytes [run] none of which is
    a delimiter, then the end of the source or a delimiter. [next_token]
    returns the NAME token ["/"] and [run] at the offset of the ["/"], and
    leaves the cursor right behind [run], on the delimiter if there is one. *)
Theorem name_token_is_longest_run (pre ws run r : string) :
  all_bytes whitespace_byte ws = true ->
  all_bytes regular_byte run = true ->
  stops_at regular_byte r ->
  next_token (at_cursor pre (ws ++ "/" ++ run ++ r))
  = Ret (Some (mkToken (Z.of_nat (len (pre ++ ws))) NAME ("/" ++ run)))
        (at_cursor ((pre ++ ws) ++ "/" ++ run) r).
Proof.
  intros Hws Hrun Hr.
  change ("/" ++ run ++ r) with (String "/"%char (run ++ r)).
  rewrite next_token_lexeme by auto.
  rewrite lexeme_name by fuel_bound.
  now rewrite span_bytes_append.
Qed.

Lemma name_token_is_longest_run_witness :
  next_token (tokenizer " /Type/Page")
  = Ret (Some (mkToken 1 NAME "/Type")) (mkBytesIO " /Type/Page" 6)
  /\ next_token (tokenizer "/") = Ret (Some (mkToken 0 NAME "/")) (mkBytesIO "/" 1).
Proof.
  split.
  - refine (name_token_is_longest_run "" " " "Type" "/Page" eq_refl eq_refl _).
    right. now exists "/"%char, "Page".
  - refine (name_token_is_longest_run "" "" "" "" eq_refl eq_refl _). now left.
Defined.

(** X2. A number: after whitespace, a non-empty run of bytes of
    ["-+.0123456789"], then the end of the source or a byte outside that
    set. [next_token] returns the run as one NUMBER token, whatever its
    shape (["1.2.3"], ["--5"], ["+"]), and leaves the cursor right behind
    it. *)
Theorem number_token_is_longest_run (pre ws : string) (d : ascii) (run r : string) :
  all_bytes whitespace_byte ws = true ->
  all_bytes number_byte (String d run) = true ->
  stops_at number_byte r ->
  next_token (at_cursor pre (ws ++ String d run ++ r))
  = Ret (Some (mkToken (Z.of_nat (len (pre ++ ws))) NUMBER (String d run)))
        (at_cursor ((pre ++ ws) ++ String d run) r).
Proof.
  intros Hws Hrun Hr.
  assert (Hd : number_byte d = true) by (simpl in Hrun; now apply andb_prop in Hrun).
  destruct (number_byte_dispatch d Hd) as [_ Hw].
  change (String d run ++ r) with (String d (run ++ r)).
  rewrite next_token_lexeme by auto.
  rewrite lexeme_number by (auto; fuel_bound).
  change (String d (run ++ r)) with (String d run ++ r).
  now rewrite span_bytes_append.
Qed.

Lemma number_token_is_longest_run_witness :
  next_token (tokenizer " 1.2.3 R")
  = Ret (Some (mkToken 1 NUMBER "1.2.3")) (mkBytesIO " 1.2.3 R" 6)
  /\ next_token (tokenizer "--5x")
     = Ret (Some (mkToken 0 NUMBER "--5")) (mkBytesIO "--5x" 3).
Proof.
  split.
  - refine (number_token_is_longest_run "" " " "1" ".2.3" " R" eq_refl eq_refl _).
    right. now exists " "%char, "R".
  - refine (number_token_is_longest_run "" "" "-" "-5" "x" eq_refl eq_refl _).
    right. now exists "x"%char, "".
Defined.

(** X3. A keyword-like run: after whitespace, a byte that is no delimiter
    and not in ["-+.0123456789"], then bytes that are no delimiters (digits
    and signs among them), then the end of the source or a delimiter.
    [next_token] returns the run as one OTHER token and leaves the cursor
    right behind it. *)
Theorem other_token_is_longest_run (pre ws : string) (d : ascii) (run r : string) :
  all_bytes whitespace_byte ws = true ->
  number_byte d = false ->
  all_bytes regular_byte (String d run) = true ->
  stops_at regular_byte r ->
  next_token (at_cursor pre (ws ++ String d run ++ r))
  = Ret (Some (mkToken (Z.of_nat (len (pre ++ ws))) OTHER (String d run)))
        (at_cursor ((pre ++ ws) ++ String d run) r).
Proof.
  intros Hws Hn Hrun Hr.
  assert (Hd : regular_byte d = true) by (simpl in Hrun; now apply andb_prop in Hrun).
  destruct (regular_byte_dispatch d Hd) as [Hdis Hw].
  change (String d run ++ r) with (String d (run ++ r)).
  rewrite next_token_lexeme by auto.
  rewrite lexeme_other by (auto; fuel_bound).
  change (String d (run ++ r)) with (String d run ++ r).
  now rewrite span_bytes_append.
Qed.

Lemma other_token_is_longest_run_witness :
  next_token (tokenizer "obj<<")
  = Ret (Some (mkToken 0 OTHER "obj")) (mkBytesIO "obj<<" 3)
  /\ next_token (tokenizer " R2-d2")
     = Ret (Some (mkToken 1 OTHER "R2-d2")) (mkBytesIO " R2-d2" 6).
Proof.
  split.
  - refine (other_token_is_longest_run "" "" "o" "bj" "<<" eq_refl eq_refl eq_refl _).
    right. now exists "<"%char, "<".
  - refine (other_token_is_longest_run "" " " "R" "2-d2" "" eq_refl eq_refl eq_refl _).
    now left.
Defined.

(** X4. A comment: after whitespace, a ["%"], then bytes [run] none of
    which is a carriage return or a line feed, then the end of the source
    or one of the two. [next_token] returns the COMMENT token ["%"] and
    [run], the line end not in it, and leaves the cursor on the line end.
    Delimiters, parentheses and further ["%"] inside [run] stay in the
    comment. *)
Theorem comment_token_runs_to_line_end (pre ws run r : string) :
  all_bytes whitespace_byte ws = true ->
  all_bytes comment_byte run = true ->
  stops_at comment_byte r ->
  next_token (at_cursor pre (ws ++ "%" ++ run ++ r))
  = Ret (Some (mkToken (Z.of_nat (len (pre ++ ws))) COMMENT ("%" ++ run)))
        (at_cursor ((pre ++ ws) ++ "%" ++ run) r).
Proof.
  intros Hws Hrun Hr.
  change ("%" ++ run ++ r) with (String "%"%char (run ++ r)).
  rewrite next_token_lexeme by auto.
  rewrite lexeme_comment_run by fuel_bound.
  now rewrite span_bytes_append.
Qed.

Lemma comment_token_runs_to_line_end_witness :
  next_token (tokenizer ("%PDF-1.7 (x) %%" ++ CR ++ LF ++ "1"))
  = Ret (Some (mkToken 0 COMMENT "%PDF-1.7 (x) %%"))
        (mkBytesIO ("%PDF-1.7 (x) %%" ++ CR ++ LF ++ "1") 15).
Proof.
  refine (comment_token_runs_to_line_end "" "" "PDF-1.7 (x) %%" (CR ++ LF ++ "1")
            eq_refl eq_refl _).
  right. now exists (ascii_of_nat 13), (LF ++ "1").
Defined.

(** ** The scanner as a function of the bytes ahead *)

Lemma prefix_one (c d : ascii) (x : string) :
  String.prefix (String c "") (String d x) = Ascii.eqb d c.
Proof.
  simpl. destruct (Ascii.ascii_dec c d) as [->|N].
  - rewrite Ascii.eqb_refl. now destruct x.
  - symmetry. apply Ascii.eqb_neq. congruence.
Qed.

Lemma prefix_one_true (c : ascii) (rest : string) :
  String.prefix (String c "") rest = true ->
  rest = String c (after_first rest).
Proof.
  destruct rest as [|d x]; [discriminate|].
  rewrite prefix_one. intros H. apply Ascii.eqb_eq in H. now subst.
Qed.

Lemma prefix_one_false (c : ascii) (rest : string) :
  String.prefix (String c "") rest = false ->
  rest = "" \/ exists d x, rest = String d x /\ d <> c.
Proof.
  destruct rest as [|d x]; [now left|].
  rewrite prefix_one. intros H. apply Ascii.eqb_neq in H. right. eauto.
Qed.

Lemma dispatch_byte_true (d : ascii) :
  dispatch_byte d = true ->
  d = "["%char \/ d = "]"%char \/ d = "/"%char \/ d = ">"%char
  \/ d = "%"%char \/ d = "<"%char \/ d = "("%char.
Proof.
  unfold dispatch_byte. simpl. rewrite orb_false_r.
  intros H. repeat (apply orb_prop in H as [H | H]);
    apply Ascii.eqb_eq in H; auto 10.
Qed.

Lemma dispatch_byte_false_ascii (d : ascii) :
  dispatch_byte d = false ->
  Ascii.eqb d "[" = false /\ Ascii.eqb d "]" = false
  /\ Ascii.eqb d "/" = false /\ Ascii.eqb d ">" = false
  /\ Ascii.eqb d "%" = false /\ Ascii.eqb d "<" = false
  /\ Ascii.eqb d "(" = false.
Proof.
  intros H. apply dispatch_byte_false in H. now rewrite !eqb_single in H.
Qed.

Lemma lexeme_scan (fuel : nat) (p : string) (d : ascii) (rest : string) :
  len rest + 2 <= fuel ->
  lexeme fuel (String d "") (at_cursor (p ++ String d "") rest)
  = scan_outcome p d rest.
Proof.
  intros Hf. unfold scan_outcome, scan_lexeme.
  destruct (dispatch_byte d) eqn:Hd.
  - apply dispatch_byte_true in Hd.
    destruct Hd as [-> | [-> | [-> | [-> | [-> | [-> | ->]]]]]]; cbn [Ascii.eqb Bool.eqb].
    + apply lexeme_start_array.
    + apply lexeme_end_array.
    + rewrite lexeme_name by lia.
      now destruct (span_bytes regular_byte rest).
    + destruct (String.prefix ">" rest) eqn:Hp.
      * apply prefix_one_true in Hp. rewrite Hp at 1. apply lexeme_end_dict.
      * apply prefix_one_false in Hp as [-> | (e & x & -> & He)].
        -- simpl first_byte. rewrite lexeme_end_dict_end. now rewrite append_nil_r.
        -- now apply lexeme_end_dict_other.
    + rewrite lexeme_comment_run by lia.
      now destruct (span_bytes comment_byte rest).
    + destruct (String.prefix "<" rest) eqn:Hp.
      * apply prefix_one_true in Hp. rewrite Hp at 1. apply lexeme_start_dict.
      * rewrite lexeme_hex_string by (auto; lia).
        now destruct (span_bytes (is_not ">") rest).
    + change (number_byte "(") with false. cbv iota.
      rewrite lexeme_literal_string by lia.
      now destruct (balanced_scan 1 rest) as [[body r]|].
  - destruct (dispatch_byte_false_ascii d Hd) as (E1 & E2 & E3 & E4 & E5 & E6 & E7).
    rewrite E1, E2, E3, E4, E5, E6, E7.
    destruct (number_byte d) eqn:Hn.
    + rewrite lexeme_number by auto.
      now destruct (span_bytes number_byte (String d rest)).
    + rewrite lexeme_other by auto.
      now destruct (span_bytes regular_byte (String d rest)).
Qed.

Lemma next_token_scan (pre ws : string) (d : ascii) (rest : string) :
  all_bytes whitespace_byte ws = true -> whitespace_byte d = false ->
  next_token (at_cursor pre (ws ++ String d rest)) = scan_outcome (pre ++ ws) d rest.
Proof.
  intros Hws Hd. rewrite next_token_lexeme by auto.
  apply lexeme_scan. fuel_bound.
Qed.

Ltac scan_cases H :=
  unfold scan_lexeme in H;
  repeat match type of H with
         | (if Ascii.eqb ?d ?c then _ else _) = _ =>
             destruct (Ascii.eqb_spec d c); [subst|]
         | (if ?b then _ else _) = _ => destruct b eqn:?
         | (let (_, _) := ?x in _) = _ => destruct x as [? ?] eqn:?
         | match ?x with Some _ => _ | None => _ end = _ =>
             destruct x as [[? ?]|] eqn:?
         end;
  try discriminate H; inversion H; subst; clear H.

Lemma scan_lexeme_split (d : ascii) (rest txt r : string) (k : TokenType) :
  scan_lexeme d rest = inl (k, txt, r) -> String d rest = txt ++ r.
Proof.
  intros H. scan_cases H;
    repeat match goal with
           | E : span_bytes _ _ = _ |- _ =>
               apply span_bytes_run in E as (E & _ & _)
           | E : String.prefix _ _ = true |- _ => apply prefix_one_true in E
           | E : balanced_scan _ _ = Some _ |- _ =>
               apply (balanced_scan_split _ _ _ _ _ (le_n _)) in E as (E & _)
           end;
    try reflexivity; try (simpl; congruence).
  (* a hex string *)
  simpl. f_equal.
  match goal with E : rest = _ |- _ => rewrite E at 1 end.
  now rewrite append_assoc, first_after.
Qed.

Lemma scan_lexeme_fails (d : ascii) (rest read r : string) :
  scan_lexeme d rest = inr (read, r) ->
  (d = ">"%char /\ String.prefix ">" rest = false
   /\ read = ">" ++ first_byte rest /\ r = after_first rest)
  \/ (d = "("%char /\ balanced_scan 1 rest = None
      /\ read = "(" ++ rest /\ r = "").
Proof. intros H. scan_cases H; auto. Qed.

Lemma scan_lexeme_kind (d : ascii) (rest txt r : string) (k : TokenType) :
  scan_lexeme d rest = inl (k, txt, r) ->
  k <> REF /\ k <> OBJ /\ k <> END_OBJ /\ k <> END_OF_FILE.
Proof. intros H. scan_cases H; repeat split; discriminate. Qed.

Lemma close_paren_only (d : ascii) :
  whitespace_byte d = false -> dispatch_byte d = false ->
  regular_byte d = false -> d = ")"%char.
Proof.
  destruct d as [b0 b1 b2 b3 b4 b5 b6 b7].
  destruct b0, b1, b2, b3, b4, b5, b6, b7;
    intros H1 H2 H3; (reflexivity || discriminate).
Qed.

Lemma scan_lexeme_empty (d : ascii) (rest r : string) (k : TokenType) :
  whitespace_byte d = false ->
  scan_lexeme d rest = inl (k, "", r) ->
  d = ")"%char /\ k = OTHER /\ r = String d rest.
Proof.
  intros Hw H. pose proof (scan_lexeme_split _ _ _ _ _ H) as S.
  simpl in S. subst r.
  scan_cases H.
  - match goal with E : span_bytes _ _ = _ |- _ =>
      rewrite span_bytes_cons in E end.
    match goal with E : number_byte d = true |- _ => rewrite E in * end.
    discriminate.
  - match goal with E : span_bytes _ _ = _ |- _ =>
      rewrite span_bytes_cons in E end.
    destruct (regular_byte d) eqn:Hr; [discriminate|].
    split; [|auto].
    apply close_paren_only; auto.
    unfold dispatch_byte. simpl.
    repeat match goal with N : d <> _ |- _ =>
             apply Ascii.eqb_neq in N; rewrite N end.
    reflexivity.
Qed.

Lemma substring_middle (p x r : string) :
  String.substring (len p) (len x) (p ++ x ++ r) = x.
Proof.
  induction p as [|c p IH]; [|exact IH]. simpl.
  induction x as [|c x IHx]; simpl.
  - now destruct r.
  - now rewrite IHx.
Qed.

(** How a call that returns a token started, and where it ended. *)
Lemma next_token_shape (s s' : BytesIO) (t : Token) :
  next_token s = Ret (Some t) s' ->
  (exists pre c ws,
      s = at_cursor pre (String c ws)
      /\ all_bytes whitespace_byte (String c ws) = true
      /\ t = mkToken (Z.of_nat (len (pre ++ String c ws)) - 1) NUMBER ""
      /\ s' = at_cursor (pre ++ String c ws) "")
  \/ (exists pre ws d rest r,
        s = at_cursor pre (ws ++ String d rest)
        /\ all_bytes whitespace_byte ws = true /\ whitespace_byte d = false
        /\ scan_lexeme d rest = inl (token_type t, text t, r)
        /\ byte_offset t = Z.of_nat (len (pre ++ ws))
        /\ s' = at_cursor ((pre ++ ws) ++ text t) r).
Proof.
  intros H.
  destruct (cursor_cases s)
    as [L | [(pre & c & ws & -> & Hws) | (pre & ws & d & rest & -> & Hws & Hd)]].
  - unfold next_token in H. rewrite next_token_fuel_end in H by exact L.
    discriminate.
  - left. exists pre, c, ws.
    rewrite next_token_whitespace_only in H by exact Hws.
    inversion H; subst. auto.
  - right. exists pre, ws, d, rest.
    rewrite next_token_scan in H by auto. unfold scan_outcome in H.
    destruct (scan_lexeme d rest) as [[[k txt] r] | [read r]];
      inversion H; subst; clear H.
    exists r. simpl. auto 10.
Qed.

(** ** Complete hex strings and the structural tokens *)

(** X5. A closed hex string: after whitespace, a ["<"], then bytes [body]
    that do not start with ["<"] and hold no [">"], then a [">"].
    [next_token] returns the HEX_STRING token made of the ["<"], [body] and
    the [">"], and leaves the cursor right behind the [">"]; with an empty
    [body] that is the token ["<>"]. What the bytes of [body] are is not
    looked at. *)
Theorem hex_string_token_closes_at_first_gt (pre ws body r : string) :
  all_bytes whitespace_byte ws = true ->
  String.prefix "<" body = false ->
  all_bytes (is_not ">") body = true ->
  next_token (at_cursor pre (ws ++ "<" ++ body ++ ">" ++ r))
  = Ret (Some (mkToken (Z.of_nat (len (pre ++ ws))) HEX_STRING ("<" ++ body ++ ">")))
        (at_cursor ((pre ++ ws) ++ "<" ++ body ++ ">") r).
Proof.
  intros Hws Hp Hb.
  change ("<" ++ body ++ ">" ++ r) with (String "<"%char (body ++ ">" ++ r)).
  rewrite next_token_lexeme by auto.
  rewrite lexeme_hex_string; [| |fuel_bound].
  - rewrite span_bytes_append; [reflexivity | exact Hb |].
    right. now exists ">"%char, r.
  - destruct body as [|c body]; [reflexivity|].
    simpl append. rewrite prefix_one in *. exact Hp.
Qed.

Lemma hex_string_token_closes_at_first_gt_witness :
  next_token (tokenizer " <48 zz>>")
  = Ret (Some (mkToken 1 HEX_STRING "<48 zz>")) (mkBytesIO " <48 zz>>" 8)
  /\ next_token (tokenizer "<>x")
     = Ret (Some (mkToken 0 HEX_STRING "<>")) (mkBytesIO "<>x" 2).
Proof.
  split.
  - exact (hex_string_token_closes_at_first_gt "" " " "48 zz" ">" eq_refl eq_refl eq_refl).
  - exact (hex_string_token_closes_at_first_gt "" "" "" "x" eq_refl eq_refl eq_refl).
Defined.

(** X6. The structural tokens: after whitespace, ["["] gives START_ARRAY,
    ["]"] gives END_ARRAY and ["<<"] gives START_DICT, each at the offset of
    its first byte, with the cursor left right behind it, whatever bytes
    follow. *)
Theorem structural_tokens (pre ws r : string) :
  all_bytes whitespace_byte ws = true ->
  next_token (at_cursor pre (ws ++ "[" ++ r))
  = Ret (Some (mkToken (Z.of_nat (len (pre ++ ws))) START_ARRAY "["))
        (at_cursor ((pre ++ ws) ++ "[") r)
  /\ next_token (at_cursor pre (ws ++ "]" ++ r))
     = Ret (Some (mkToken (Z.of_nat (len (pre ++ ws))) END_ARRAY "]"))
           (at_cursor ((pre ++ ws) ++ "]") r)
  /\ next_token (at_cursor pre (ws ++ "<<" ++ r))
     = Ret (Some (mkToken (Z.of_nat (len (pre ++ ws))) START_DICT "<<"))
           (at_cursor ((pre ++ ws) ++ "<<") r).
Proof.
  intros Hws. split; [|split].
  - change ("[" ++ r) with (String "["%char r).
    rewrite next_token_lexeme by auto. apply lexeme_start_array.
  - change ("]" ++ r) with (String "]"%char r).
    rewrite next_token_lexeme by auto. apply lexeme_end_array.
  - change ("<<" ++ r) with (String "<"%char ("<" ++ r)).
    rewrite next_token_lexeme by auto. apply lexeme_start_dict.
Qed.

Lemma structural_tokens_witness :
  next_token (tokenizer " [1]")
  = Ret (Some (mkToken 1 START_ARRAY "[")) (mkBytesIO " [1]" 2)
  /\ next_token (mkBytesIO "[1]" 2)
     = Ret (Some (mkToken 2 END_ARRAY "]")) (mkBytesIO "[1]" 3)
  /\ next_token (tokenizer "<</A") 
     = Ret (Some (mkToken 0 START_DICT "<<")) (mkBytesIO "<</A" 2).
Proof.
  split; [|split].
  - exact (proj1 (structural_tokens "" " " "1]" eq_refl)).
  - exact (proj1 (proj2 (structural_tokens "[1" "" "" eq_refl))).
  - exact (proj2 (proj2 (structural_tokens "" "" "/A" eq_refl))).
Defined.

(** ** The scanner as a function *)

(** X7. A call of [next_token] depends on the bytes from the cursor on and
    on nothing else, and is the function [scan_lexeme] of them: with
    whitespace [ws] at the cursor and then a byte [d] that is not
    whitespace, the call returns the token [scan_lexeme] gives, at the
    offset of [d], and leaves the cursor behind the token's text; where
    [scan_lexeme] has no token the call raises [AssertionError] with the
    cursor behind the bytes read. *)
Theorem next_token_is_scan_lexeme (pre ws : string) (d : ascii) (rest : string) :
  all_bytes whitespace_byte ws = true -> whitespace_byte d = false ->
  next_token (at_cursor pre (ws ++ String d rest))
  = match scan_lexeme d rest with
    | inl (kind, txt, r) =>
        Ret (Some (mkToken (Z.of_nat (len (pre ++ ws))) kind txt))
            (at_cursor ((pre ++ ws) ++ txt) r)
    | inr (read, r) =>
        Raise (AssertionError None) (at_cursor ((pre ++ ws) ++ read) r)
    end.
Proof.
  intros Hws Hd.
  rewrite next_token_lexeme by auto.
  rewrite lexeme_scan by fuel_bound.
  reflexivity.
Qed.

Lemma next_token_is_scan_lexeme_witness :
  next_token (tokenizer "  endobj 12")
  = Ret (Some (mkToken 2 OTHER "endobj")) (mkBytesIO "  endobj 12" 8)
  /\ next_token (tokenizer "> >")
     = Raise (AssertionError None) (mkBytesIO "> >" 2).
Proof.
  split.
  - exact (next_token_is_scan_lexeme "" "  " "e" "ndobj 12" eq_refl eq_refl).
  - exact (next_token_is_scan_lexeme "" "" ">" " >" eq_refl eq_refl).
Defined.

(** ** What every call keeps *)

Lemma substring_none (b : string) (n : nat) : String.substring n 0 b = "".
Proof.
  revert n; induction b as [|c b IH]; intros [|n]; simpl; auto.
Qed.

Lemma append_inj (p p' r r' : string) :
  len p = len p' -> p ++ r = p' ++ r' -> p = p' /\ r = r'.
Proof.
  revert p'; induction p as [|c p IH]; intros [|c' p'] L E;
    try discriminate L.
  - now split.
  - simpl in *. inversion E; subst.
    destruct (IH p') as [-> ->]; auto.
Qed.

Lemma at_cursor_inj (p p' r r' : string) :
  at_cursor p r = at_cursor p' r' -> p = p' /\ r = r'.
Proof.
  unfold at_cursor. intros E. inversion E. now apply append_inj.
Qed.

(** X8. The one exception [next_token] raises is the [AssertionError] of an
    [assert] without message, never a [TypeError] from [ord] or a
    [ValueError] from a seek, and it raises it in two situations only:
    behind whitespace there is a [">"] that no second [">"] follows, or a
    ["("] whose balanced scan reaches the end of the source. The source
    itself is left as it was. *)
Theorem next_token_raises_only_assertion_error (s s' : BytesIO) (e : exception) :
  next_token s = Raise e s' ->
  e = AssertionError None
  /\ buf s' = buf s
  /\ exists pre ws rest,
       all_bytes whitespace_byte ws = true
       /\ ((s = at_cursor pre (ws ++ ">" ++ rest)
            /\ String.prefix ">" rest = false)
           \/ (s = at_cursor pre (ws ++ "(" ++ rest)
               /\ balanced_scan 1 rest = None)).
Proof.
  intros H.
  destruct (cursor_cases s)
    as [L | [(pre & c & ws & -> & Hws) | (pre & ws & d & rest & -> & Hws & Hd)]].
  - unfold next_token in H. rewrite next_token_fuel_end in H by exact L.
    discriminate.
  - rewrite next_token_whitespace_only in H by exact Hws. discriminate.
  - rewrite next_token_scan in H by auto. unfold scan_outcome in H.
    destruct (scan_lexeme d rest) as [[[k txt] r] | [read r]] eqn:E;
      inversion H; subst; clear H.
    split; [reflexivity|].
    apply scan_lexeme_fails in E
      as [(-> & Hp & -> & ->) | (-> & Hb & -> & ->)].
    + split.
      * unfold at_cursor. simpl buf.
        rewrite !append_assoc. simpl. now rewrite first_after.
      * exists pre, ws, rest. auto.
    + split.
      * unfold at_cursor. simpl buf.
        rewrite !append_assoc. simpl. now rewrite append_nil_r.
      * exists pre, ws, rest. auto.
Qed.

Lemma next_token_raises_only_assertion_error_witness :
  next_token (mkBytesIO "12 (ab" 2)
  = Raise (AssertionError None) (mkBytesIO "12 (ab" 6)
  /\ exists pre ws rest,
       all_bytes whitespace_byte ws = true
       /\ ((mkBytesIO "12 (ab" 2 = at_cursor pre (ws ++ ">" ++ rest)
            /\ String.prefix ">" rest = false)
           \/ (mkBytesIO "12 (ab" 2 = at_cursor pre (ws ++ "(" ++ rest)
               /\ balanced_scan 1 rest = None)).
Proof.
  split; [reflexivity|].
  exact (proj2 (proj2 (next_token_raises_only_assertion_error
                         (mkBytesIO "12 (ab" 2) (mkBytesIO "12 (ab" 6)
                         (AssertionError None) eq_refl))).
Defined.

(** X9. The text of every token is a slice of the source: the bytes of the
    source from the token's [byte_offset] on, as many as the text is long,
    unchanged. The offset is not before the cursor the call started from
    and is inside the source, and the call leaves the source as it was. *)
Theorem token_text_is_slice_of_source (s s' : BytesIO) (t : Token) :
  next_token s = Ret (Some t) s' ->
  buf s' = buf s
  /\ (Z.of_nat (pos s) <= byte_offset t < Z.of_nat (len (buf s)))%Z
  /\ text t
     = String.substring (Z.to_nat (byte_offset t)) (len (text t)) (buf s).
Proof.
  intros H.
  apply next_token_shape in H
    as [(pre & c & ws & -> & Hws & -> & ->)
       | (pre & ws & d & rest & r & -> & Hws & Hd & E & Ho & ->)].
  - unfold at_cursor. simpl buf; simpl pos; simpl text; simpl byte_offset.
    rewrite append_nil_r, substring_none.
    split; [reflexivity|]. split; [|reflexivity].
    rewrite len_append. simpl len. lia.
  - apply scan_lexeme_split in E. rewrite Ho, Nat2Z.id.
    unfold at_cursor. simpl buf; simpl pos.
    rewrite E, !append_assoc.
    split; [reflexivity|]. split.
    + rewrite <- E, <- (append_assoc pre ws), !len_append. simpl len. lia.
    + rewrite <- (append_assoc pre ws). now rewrite substring_middle.
Qed.

Lemma token_text_is_slice_of_source_witness :
  next_token (mkBytesIO "12 /Name(x)" 2)
  = Ret (Some (mkToken 3 NAME "/Name")) (mkBytesIO "12 /Name(x)" 8)
  /\ "/Name" = String.substring 3 5 "12 /Name(x)".
Proof.
  split; [reflexivity|].
  exact (proj2 (proj2 (token_text_is_slice_of_source (mkBytesIO "12 /Name(x)" 2)
                         (mkBytesIO "12 /Name(x)" 8) (mkToken 3 NAME "/Name")
                         eq_refl))).
Defined.

(** X10. Where a call that returns a token leaves the cursor: right behind
    the token's text, at [byte_offset] plus the length of the text. The one
    exception is the NUMBER token with empty text returned when only
    whitespace is left: its offset is that of the last byte of the source
    and the cursor is left at the end. The cursor never moves backwards,
    and it moves forwards whenever the token has text. *)
Theorem cursor_after_token (s s' : BytesIO) (t : Token) :
  next_token s = Ret (Some t) s' ->
  pos s <= pos s'
  /\ (text t <> "" -> pos s < pos s')
  /\ ((Z.of_nat (pos s') = byte_offset t + Z.of_nat (len (text t)))%Z
      \/ (token_type t = NUMBER /\ text t = ""
          /\ pos s' = len (buf s)
          /\ (Z.of_nat (pos s') = byte_offset t + 1)%Z)).
Proof.
  intros H.
  apply next_token_shape in H
    as [(pre & c & ws & -> & Hws & -> & ->)
       | (pre & ws & d & rest & r & -> & Hws & Hd & E & Ho & ->)].
  - unfold at_cursor. simpl buf; simpl pos; simpl text; simpl byte_offset.
    rewrite !len_append. simpl len.
    split; [lia|]. split; [congruence|]. right.
    repeat split; lia.
  - rewrite Ho. unfold at_cursor. simpl pos.
    rewrite !len_append.
    split; [lia|]. split; [|left; lia].
    intros N. destruct (text t); [congruence | simpl; lia].
Qed.

Lemma cursor_after_token_witness :
  next_token (mkBytesIO "12 /Name(x)" 2)
  = Ret (Some (mkToken 3 NAME "/Name")) (mkBytesIO "12 /Name(x)" 8)
  /\ pos (mkBytesIO "12 /Name(x)" 2) <= pos (mkBytesIO "12 /Name(x)" 8).
Proof.
  split; [reflexivity|].
  exact (proj1 (cursor_after_token (mkBytesIO "12 /Name(x)" 2)
                  (mkBytesIO "12 /Name(x)" 8) (mkToken 3 NAME "/Name") eq_refl)).
Defined.

(** X11. A token with empty text comes out of [next_token] in two
    situations only: as a NUMBER token when nothing but whitespace, and at
    least one byte of it, is left from the cursor on; and as an OTHER token
    when the next byte behind the whitespace is [")"]. Every other token
    has text. *)
Theorem empty_text_only_at_end_or_close_paren (s s' : BytesIO) (t : Token) :
  next_token s = Ret (Some t) s' ->
  text t = "" ->
  (token_type t = NUMBER
   /\ exists pre c ws,
        s = at_cursor pre (String c ws)
        /\ all_bytes whitespace_byte (String c ws) = true)
  \/ (token_type t = OTHER
      /\ exists pre ws rest,
           s = at_cursor pre (ws ++ ")" ++ rest)
           /\ all_bytes whitespace_byte ws = true).
Proof.
  intros H Ht.
  apply next_token_shape in H
    as [(pre & c & ws & -> & Hws & -> & ->)
       | (pre & ws & d & rest & r & -> & Hws & Hd & E & Ho & ->)].
  - left. split; [reflexivity|]. now exists pre, c, ws.
  - right. rewrite Ht in E.
    apply scan_lexeme_empty in E as (-> & -> & _); [|exact Hd].
    split; [reflexivity|]. now exists pre, ws, rest.
Qed.

Lemma empty_text_only_at_end_or_close_paren_witness :
  next_token (tokenizer "a )") = Ret (Some (mkToken 0 OTHER "a")) (mkBytesIO "a )" 1)
  /\ next_token (mkBytesIO "a )" 1) = Ret (Some (mkToken 2 OTHER "")) (mkBytesIO "a )" 2)
  /\ exists pre ws rest,
       mkBytesIO "a )" 1 = at_cursor pre (ws ++ ")" ++ rest)
       /\ all_bytes whitespace_byte ws = true.
Proof.
  split; [reflexivity|]. split; [reflexivity|].
  destruct (empty_text_only_at_end_or_close_paren (mkBytesIO "a )" 1)
              (mkBytesIO "a )" 2) (mkToken 2 OTHER "") eq_refl eq_refl)
    as [[H _] | [_ H]]; [discriminate H | exact H].
Defined.

Lemma next_non_comment_token_skips (s : BytesIO) :
  skips_comments s (next_non_comment_token s).
Proof.
  unfold next_non_comment_token, next_non_comment_token_fuel, bind.
  change (next_token_fuel (fuel_of s) s) with (next_token s).
  destruct (next_token s) as [t0 s1|e s1|] eqn:E.
  - apply discard_comments_skips; [exact E|]. unfold fuel_of, remaining. lia.
  - rewrite <- E. apply skips_done. rewrite E. discriminate.
  - now apply next_token_total in E.
Qed.

Lemma next_token_kind (s s' : BytesIO) (t : Token) :
  next_token s = Ret (Some t) s' ->
  token_type t <> REF /\ token_type t <> OBJ
  /\ token_type t <> END_OBJ /\ token_type t <> END_OF_FILE.
Proof.
  intros H.
  apply next_token_shape in H
    as [(pre & c & ws & -> & Hws & -> & ->)
       | (pre & ws & d & rest & r & -> & Hws & Hd & E & Ho & ->)].
  - repeat split; discriminate.
  - now apply scan_lexeme_kind in E.
Qed.

(** X12. REF, OBJ, END_OBJ and END_OF_FILE, members of [TokenType] like the
    others, are never the kind of a token that [next_token] or
    [next_non_comment_token] returns. *)
Theorem token_kinds_never_returned (s s' : BytesIO) (t : Token) :
  next_token s = Ret (Some t) s' \/ next_non_comment_token s = Ret (Some t) s' ->
  token_type t <> REF /\ token_type t <> OBJ
  /\ token_type t <> END_OBJ /\ token_type t <> END_OF_FILE.
Proof.
  intros [H | H]; [now apply (next_token_kind s s')|].
  pose proof (next_non_comment_token_skips s) as S.
  rewrite H in S. clear H.
  remember (Ret (Some t) s') as r eqn:E.
  induction S as [s0 Hn | s0 s1 t0 r _ _ _ IH]; [|now apply IH].
  now apply (next_token_kind s0 s').
Qed.

Lemma token_kinds_never_returned_witness :
  next_non_comment_token (tokenizer ("%c" ++ LF ++ "obj"))
  = Ret (Some (mkToken 3 OTHER "obj")) (mkBytesIO ("%c" ++ LF ++ "obj") 6)
  /\ OTHER <> OBJ.
Proof.
  split; [reflexivity|].
  exact (proj1 (proj2 (token_kinds_never_returned
                         (tokenizer ("%c" ++ LF ++ "obj"))
                         (mkBytesIO ("%c" ++ LF ++ "obj") 6)
                         (mkToken 3 OTHER "obj") (or_intror eq_refl)))).
Defined.

(** ** The end of the stream *)

(** X13. [next_token] returns [None] exactly when the cursor is at or past
    the end of the source, and then leaves the cursor where it is; so at
    the end every further call of [next_token], and a call of
    [next_non_comment_token], returns [None] again. Whitespace before the
    end is enough for a call not to return [None]. *)
Theorem none_exactly_at_end (s : BytesIO) :
  (forall s', next_token s = Ret None s' -> len (buf s) <= pos s /\ s' = s)
  /\ (len (buf s) <= pos s ->
      forall n, next_tokens n s = Ret (repeat None n) s
                /\ next_non_comment_token s = Ret None s).
Proof.
  split.
  - intros s' H.
    destruct (cursor_cases s)
      as [L | [(pre & c & ws & -> & Hws) | (pre & ws & d & rest & -> & Hws & Hd)]].
    + unfold next_token in H. rewrite next_token_fuel_end in H by exact L.
      inversion H; subst. now split.
    + rewrite next_token_whitespace_only in H by exact Hws. discriminate.
    + rewrite next_token_scan in H by auto. unfold scan_outcome in H.
      destruct (scan_lexeme d rest) as [[[k txt] r] | [read r]]; discriminate.
  - intros L n.
    assert (E : next_token s = Ret None s)
      by (unfold next_token; now apply next_token_fuel_end).
    split.
    + induction n as [|n IH]; [reflexivity|].
      rewrite (next_tokens_S _ _ _ _ E), IH. reflexivity.
    + unfold next_non_comment_token, next_non_comment_token_fuel.
      change (next_token_fuel (fuel_of s)) with (fun s0 => next_token_fuel (fuel_of s) s0).
      unfold bind. fold (next_token s). rewrite E.
      unfold fuel_of. rewrite Nat.add_comm. reflexivity.
Qed.

Lemma none_exactly_at_end_witness :
  next_tokens 3 (mkBytesIO "ab" 5) = Ret [None; None; None] (mkBytesIO "ab" 5)
  /\ next_non_comment_token (tokenizer "") = Ret None (tokenizer "").
Proof.
  split.
  - refine (proj1 (proj2 (none_exactly_at_end (mkBytesIO "ab" 5)) _ 3)).
    simpl. lia.
  - refine (proj2 (proj2 (none_exactly_at_end (tokenizer "")) _ 0)).
    simpl. lia.
Defined.

(** ** Consecutive tokens *)

(** X14. Two calls of [next_token] in a row that both return a token: the
    second token starts where the text of the first ends or behind
    whitespace that follows it, and that whitespace is all the source has
    between the two. Tokens come in the order of the source and never
    overlap, and no byte other than whitespace is passed over. *)
Theorem consecutive_tokens_only_skip_whitespace
        (s s1 s2 : BytesIO) (t1 t2 : Token) :
  next_token s = Ret (Some t1) s1 ->
  next_token s1 = Ret (Some t2) s2 ->
  exists gap,
    all_bytes whitespace_byte gap = true
    /\ (byte_offset t2
        = byte_offset t1 + Z.of_nat (len (text t1)) + Z.of_nat (len gap))%Z
    /\ String.substring (Z.to_nat (byte_offset t1) + len (text t1)) (len gap) (buf s)
       = gap.
Proof.
  intros H1 H2.
  apply next_token_shape in H1
    as [(pre & c & ws & -> & Hws & -> & ->)
       | (pre & ws & d & rest & r & -> & Hws & Hd & E & Ho & ->)].
  - unfold next_token in H2.
    rewrite next_token_fuel_end in H2; [discriminate|].
    unfold at_cursor. simpl. rewrite append_nil_r. lia.
  - apply scan_lexeme_split in E.
    assert (B : buf (at_cursor pre (ws ++ String d rest))
                = ((pre ++ ws) ++ text t1) ++ r).
    { unfold at_cursor. simpl buf. now rewrite E, !append_assoc. }
    rewrite B, Ho, Nat2Z.id, <- len_append. clear B.
    set (p := (pre ++ ws) ++ text t1) in *.
    apply next_token_shape in H2
      as [(pre2 & c2 & ws2 & Es & Hws2 & -> & _)
         | (pre2 & ws2 & d2 & rest2 & r2 & Es & Hws2 & Hd2 & _ & Ho2 & _)];
      apply at_cursor_inj in Es as [<- ->].
    + destruct (string_last c2 ws2) as (init & l & El). rewrite El in *.
      rewrite all_bytes_append in Hws2. apply andb_prop in Hws2 as [Hi _].
      exists init. split; [exact Hi|]. split.
      * simpl byte_offset. unfold p. rewrite !len_append. simpl len. lia.
      * now rewrite substring_middle.
    + exists ws2. split; [exact Hws2|]. split.
      * rewrite Ho2. unfold p. rewrite !len_append. lia.
      * now rewrite substring_middle.
Qed.

Lemma consecutive_tokens_only_skip_whitespace_witness :
  next_token (tokenizer "12  0 R") = Ret (Some (mkToken 0 NUMBER "12")) (mkBytesIO "12  0 R" 2)
  /\ next_token (mkBytesIO "12  0 R" 2) = Ret (Some (mkToken 4 NUMBER "0")) (mkBytesIO "12  0 R" 5)
  /\ exists gap,
       all_bytes whitespace_byte gap = true
       /\ (4 = 0 + Z.of_nat (len "12") + Z.of_nat (len gap))%Z
       /\ String.substring (Z.to_nat 0 + len "12") (len gap) "12  0 R" = gap.
Proof.
  split; [reflexivity|]. split; [reflexivity|].
  exact (consecutive_tokens_only_skip_whitespace (tokenizer "12  0 R")
           (mkBytesIO "12  0 R" 2) (mkBytesIO "12  0 R" 5)
           (mkToken 0 NUMBER "12") (mkToken 4 NUMBER "0") eq_refl eq_refl).
Defined.

(** ** Reading, pushing back and the byte classes *)

Lemma prev_char_after (b : string) (p : nat) :
  _prev_char (mkBytesIO b (S p)) = Ret (Z.of_nat p) (mkBytesIO b p).
Proof.
  unfold _prev_char, io_seek. cbn [pos buf].
  change (SEEK_CUR =? SEEK_SET)%Z with false.
  change (SEEK_CUR =? SEEK_CUR)%Z with true. cbv iota zeta.
  replace (Z.max 0 (Z.of_nat (S p) + -1)) with (Z.of_nat p) by lia.
  now rewrite Nat2Z.id.
Qed.

(** X15. The guarded push-back used after every loop,
    [if len(ch) != 0: self._prev_char()], undoes the [_next_char] before
    it on every source and at every cursor: the cursor is back where it
    was, whether a byte was read or the end had been reached. Without the
    guard the pair is not neutral at the end of the source: nothing is
    read, and [_prev_char] still steps one byte back. *)
Theorem push_back_undoes_next_char (s : BytesIO) :
  (ch <- _next_char ;; push_back ch) s = Ret tt s
  /\ (len (buf s) <= pos s -> 0 < pos s ->
      (_next_char ;; _prev_char) s
      = Ret (Z.of_nat (pos s) - 1)%Z (mkBytesIO (buf s) (pos s - 1))).
Proof.
  split.
  - destruct (next_char_cases s) as [[E L] | [c [E L]]];
      rewrite (bind_Ret _ _ _ _ _ E); [reflexivity|].
    unfold push_back. change (negb (len (String c "") =? 0)%nat) with true.
    cbv iota. rewrite (bind_Ret _ _ _ _ _ (prev_char_after _ _)).
    now destruct s.
  - intros L P.
    destruct (next_char_cases s) as [[E _] | [c [_ L']]]; [|lia].
    rewrite (bind_Ret _ _ _ _ _ E).
    destruct s as [b [|p]]; [simpl in P; lia|].
    rewrite prev_char_after. cbn [pos buf].
    f_equal; [lia | f_equal; lia].
Qed.

Lemma push_back_undoes_next_char_witness :
  (_next_char ;; _prev_char) (mkBytesIO "ab" 2) = Ret 1%Z (mkBytesIO "ab" 1).
Proof.
  refine (proj2 (push_back_undoes_next_char (mkBytesIO "ab" 2)) _ _);
    simpl; lia.
Defined.

(** X16. [_is_whitespace] and [_is_delimiter] on a one-byte string: every
    whitespace byte is a delimiter, and the delimiters that are not
    whitespace are the eight bytes of ["%()/<>[]"]. On the empty string, and
    on any string longer than one byte, both raise [TypeError], which is
    why every call in [next_token] stands behind a test of [len(ch)]. *)
Theorem delimiters_are_whitespace_or_punctuation (ch : string) (s : BytesIO) :
  match ch with
  | String c EmptyString =>
      exists w d,
        _is_whitespace ch s = Ret w s /\ _is_delimiter ch s = Ret d s
        /\ d = w || existsb (Ascii.eqb c) (list_ascii_of_string "%()/<>[]")
  | _ =>
      _is_whitespace ch s = Raise TypeError s
      /\ _is_delimiter ch s = Raise TypeError s
  end.
Proof.
  destruct ch as [|c [|c' ch]]; [now split | | now split].
  exists (whitespace_byte c), (delimiter_byte c).
  split; [reflexivity|]. split; [reflexivity|].
  destruct c as [b0 b1 b2 b3 b4 b5 b6 b7].
  destruct b0, b1, b2, b3, b4, b5, b6, b7; reflexivity.
Qed.

(** ** The second assertion of the STRING case *)

(** X17. Whenever the loop of the STRING case ends with a byte in [ch],
    that byte is the last one of [out_str] and is not a backslash. So the
    second assertion of the STRING case,
    [assert not out_str.endswith("\\")], never fails: a literal string that
    [next_token] rejects is rejected by [assert len(ch) != 0]. *)
Theorem string_loop_never_ends_on_backslash
        (fuel : nat) (level : Z) (out_str out_str' ch : string) (s s' : BytesIO) :
  string_loop fuel level out_str s = Ret (out_str', ch) s' ->
  ch <> "" ->
  endswith out_str' BACKSLASH = false
  /\ exists x c, ch = String c "" /\ out_str' = x ++ ch.
Proof.
  revert level out_str s.
  induction fuel as [|fuel IH]; intros level out_str s H Hch; [discriminate|].
  simpl in H.
  apply bind_Ret_inv in H as (ch1 & s1 & Hr & H).
  destruct (next_char_cases s) as [[E _] | [c [E _]]];
    rewrite E in Hr; inversion Hr; subst ch1 s1; clear Hr E.
  - simpl in H. inversion H; subst. contradiction.
  - change (len (String c "") =? 0)%nat with false in H. cbv iota in H.
    rewrite eqb_backslash in H.
    destruct (Ascii.eqb c "\") eqn:Ec.
    + apply bind_Ret_inv in H as (ch2 & s2 & _ & H). now apply IH in H.
    + match type of H with
        (if ?b then _ else _) _ = _ => destruct b
      end.
      * inversion H; subst. split.
        -- unfold BACKSLASH. change (ascii_of_nat 92) with "\"%char.
           now rewrite endswith_last.
        -- now exists out_str, c.
      * now apply IH in H.
Qed.

Lemma string_loop_never_ends_on_backslash_witness :
  string_loop 9 1 "(" (mkBytesIO "(a\))b" 1) = Ret ("(a\))", ")") (mkBytesIO "(a\))b" 5)
  /\ endswith "(a\))" BACKSLASH = false.
Proof.
  split; [reflexivity|].
  refine (proj1 (string_loop_never_ends_on_backslash 9 1 "(" "(a\))" ")"
                   (mkBytesIO "(a\))b" 1) (mkBytesIO "(a\))b" 5) eq_refl _)).
  discriminate.
Defined.

(** ** Whitespace before a lexeme *)

(** X18. Whitespace in front of a lexeme changes nothing: a call made from
    before the whitespace has the outcome, token, offset and final cursor
    included, of a call made from the first byte behind it. (With
    whitespace and then the end of the source the two differ: see
    [next_token_whitespace_only] and [next_token_fuel_end].) *)
Theorem leading_whitespace_is_skipped (pre ws : string) (d : ascii) (rest : string) :
  all_bytes whitespace_byte ws = true -> whitespace_byte d = false ->
  next_token (at_cursor pre (ws ++ String d rest))
  = next_token (at_cursor (pre ++ ws) (String d rest)).
Proof.
  intros Hws Hd.
  rewrite next_token_scan by auto.
  pose proof (next_token_scan (pre ++ ws) "" d rest eq_refl Hd) as E.
  simpl append in E. rewrite E. now rewrite append_nil_r.
Qed.

Lemma leading_whitespace_is_skipped_witness :
  next_token (mkBytesIO "[  /A" 1) = next_token (mkBytesIO "[  /A" 3).
Proof.
  exact (leading_whitespace_is_skipped "[" "  " "/" "A" eq_refl eq_refl).
Defined.
